(** * Koine Python SDK: the streaming response reconciler

    A shallow embedding of [koine_sdk/client.py]: the SSE frame decoder
    ([_parse_sse_stream]), the event reconciler ([_process_sse_stream]) with
    its three futures, and the stream session ([stream_text],
    [_parse_error_response]).

    Python [str] values are sequences of Unicode code points; they are
    modelled as lists of code points ([N]).  Asynchronous generators are
    modelled as explicit state machines driven by the consumer's [anext] and
    [aclose] calls. *)

From Stdlib Require Import List NArith ZArith Bool Arith Lia String Ascii DecimalString.
Import ListNotations.

Set Implicit Arguments.

(* ===================================================================== *)
(** ** Python strings *)
(* ===================================================================== *)

Module PyStr.

Definition char := N.
Definition str := list char.

(** A literal of the source, written as a Rocq string. *)
Definition lit (s : string) : str := map N_of_ascii (list_ascii_of_string s).

Definition LF : char := 10%N.

Fixpoint eqb (a b : str) : bool :=
  match a, b with
  | [], [] => true
  | x :: a', y :: b' => N.eqb x y && eqb a' b'
  | _, _ => false
  end.

(** Truthiness of a string: [if s:] holds for the non-empty ones. *)
Definition truthy (s : str) : bool :=
  match s with [] => false | _ :: _ => true end.

(** [s.startswith(p)] *)
Fixpoint startswith (p s : str) : bool :=
  match p, s with
  | [], _ => true
  | _ :: _, [] => false
  | x :: p', y :: s' => N.eqb x y && startswith p' s'
  end.

(** [s.split(sep, 1)] when [sep in s]: the text before the first occurrence
    of [sep] and the text after it; [None] when [sep in s] is false. *)
Fixpoint split1 (sep s : str) : option (str * str) :=
  if startswith sep s then Some ([], skipn (List.length sep) s)
  else match s with
       | [] => None
       | c :: t =>
           match split1 sep t with
           | Some (a, b) => Some (c :: a, b)
           | None => None
           end
       end.

(** [s.split(c)] for a one-character separator: never empty. *)
Fixpoint split (c : char) (s : str) : list str :=
  match s with
  | [] => [[]]
  | x :: t =>
      if N.eqb x c then [] :: split c t
      else match split c t with
           | [] => [[x]]
           | l :: ls => (x :: l) :: ls
           end
  end.

(** [str.isspace] on one code point (the table of CPython's
    [_PyUnicode_IsWhitespace]). *)
Definition isspace (c : char) : bool :=
  ((9 <=? c) && (c <=? 13) || (28 <=? c) && (c <=? 32)
   || (c =? 133) || (c =? 160) || (c =? 5760)
   || (8192 <=? c) && (c <=? 8202)
   || (c =? 8232) || (c =? 8233) || (c =? 8239) || (c =? 8287)
   || (c =? 12288))%N.

Fixpoint lstrip (s : str) : str :=
  match s with
  | [] => []
  | c :: t => if isspace c then lstrip t else s
  end.

Definition rstrip (s : str) : str := rev (lstrip (rev s)).

(** [s.strip()] *)
Definition strip (s : str) : str := rstrip (lstrip s).

(** [str(n)] for a non-negative integer. *)
Definition of_N (n : N) : str := lit (NilEmpty.string_of_uint (N.to_uint n)).

End PyStr.

Import PyStr.

(* ===================================================================== *)
(** ** Frame decoder: [_parse_sse_stream] *)
(* ===================================================================== *)

Module Decoder.

(** A frame is the tuple [(event_type, data_json)] the generator yields. *)
Definition frame := (str * str)%type.

Definition SEP : str := [LF; LF].
Definition EVENT_PREFIX : str := lit "event: ".
Definition DATA_PREFIX : str := lit "data: ".

(** One turn of [for line in event_str.split("\n")]. *)
Definition scan_line (acc : str * str) (line : str) : str * str :=
  let '(event_type, data) := acc in
  if startswith EVENT_PREFIX line then (skipn 7 line, data)
  else if startswith DATA_PREFIX line then (event_type, skipn 6 line)
  else (event_type, data).

(** The values of [event_type] and [data] after the [for] loop. *)
Definition scan_lines (event_str : str) : str * str :=
  fold_left scan_line (split LF event_str) ([], []).

(** The body run on one span of text: the frames it yields. *)
Definition parse_event (event_str : str) : list frame :=
  let '(event_type, data) := scan_lines event_str in
  if truthy event_type && truthy data then [(event_type, data)] else [].

(** What one span contributes, with the guard [if not event_str.strip()]. *)
Definition emit (event_str : str) : list frame :=
  if truthy (strip event_str) then parse_event event_str else [].

(** [while "\n\n" in buffer: ...]: the frames yielded and the buffer left.
    Every turn removes at least the separator, so [length buffer] turns
    suffice; [drain] supplies them. *)
Fixpoint drain_fuel (fuel : nat) (buffer : str) : list frame * str :=
  match fuel with
  | O => ([], buffer)
  | S fuel' =>
      match split1 SEP buffer with
      | None => ([], buffer)
      | Some (event_str, rest) =>
          let '(frames, buffer') := drain_fuel fuel' rest in
          (emit event_str ++ frames, buffer')
      end
  end.

Definition drain (buffer : str) : list frame * str :=
  drain_fuel (List.length buffer) buffer.

(** [async for chunk in response.aiter_text(): buffer += chunk; while ...] *)
Fixpoint feed_all (buffer : str) (chunks : list str) : list frame * str :=
  match chunks with
  | [] => ([], buffer)
  | chunk :: chunks' =>
      let '(frames, buffer') := drain (buffer ++ chunk) in
      let '(frames', buffer'') := feed_all buffer' chunks' in
      (frames ++ frames', buffer'')
  end.

(** "Process any remaining data in buffer" *)
Definition flush (buffer : str) : list frame := emit buffer.

(** All the frames the generator yields for the chunks of a response. *)
Definition parse_sse_stream (chunks : list str) : list frame :=
  let '(frames, buffer) := feed_all [] chunks in
  frames ++ flush buffer.

(** The segments of a raw text, as [text.split("\n\n")] gives them: the
    spans between double newlines, in order, the last one being the text
    after the last separator. *)
Fixpoint segments_fuel (fuel : nat) (text : str) : list str :=
  match fuel with
  | O => [text]
  | S fuel' =>
      match split1 SEP text with
      | None => [text]
      | Some (segment, rest) => segment :: segments_fuel fuel' rest
      end
  end.

Definition segments (text : str) : list str :=
  segments_fuel (List.length text) text.

(** Among the lines, one that starts with the event-type prefix and, after
    it, one that starts with the data prefix. *)
Fixpoint event_then_data (lines : list str) : bool :=
  match lines with
  | [] => false
  | line :: lines' =>
      (startswith EVENT_PREFIX line
       && existsb (startswith DATA_PREFIX) lines')
      || event_then_data lines'
  end.

End Decoder.

Import Decoder.

(* ===================================================================== *)
(** ** Exceptions, futures and payload validation *)
(* ===================================================================== *)

Module Py.

(** Modelled from the spec: the exception class [KoineError] of
    [koine_sdk/errors.py], which is not among the sources.  Its constructor
    takes the message, the code and an optional raw text, as the calls of
    [client.py] and the test-suite use it. *)
Record KoineError : Type :=
  mkKoineError { message : str; code : str; raw_text : option str }.

Inductive exn : Type :=
| Koine (e : KoineError)
| InvalidStateError   (* asyncio: a result set on a future that is done *)
| ResponseNotRead.    (* httpx: content of a streamed response not read yet *)

(** [KoineUsage] of [types.py]. *)
Record KoineUsage : Type :=
  mkUsage { input_tokens : Z; output_tokens : Z; total_tokens : Z }.

(** [asyncio.Future]: pending, or done with a result or an exception. *)
Inductive future (A : Type) : Type :=
| Pending
| Result (v : A)
| Exception (e : exn).
Arguments Pending {A}.
Arguments Result {A} v.
Arguments Exception {A} e.

Definition done {A} (f : future A) : bool :=
  match f with Pending => false | _ => true end.

(** [f.set_result(v)]: raises [InvalidStateError] when [f] is done. *)
Definition set_result {A} (f : future A) (v : A) : exn + future A :=
  match f with
  | Pending => inr (Result v)
  | _ => inl InvalidStateError
  end.

(** [f.set_exception(e)]: raises [InvalidStateError] when [f] is done. *)
Definition set_exception {A} (f : future A) (e : exn) : exn + future A :=
  match f with
  | Pending => inr (Exception e)
  | _ => inl InvalidStateError
  end.

(** [x or default] on an optional string: [None] and the empty string are
    both falsy. *)
Definition or_else (x : option str) (default : str) : str :=
  match x with
  | Some s => if truthy s then s else default
  | None => default
  end.

(** The payload models of [types.py], each composed with [json.loads]:
    [M data] stands for [M.model_validate(json.loads(data))] and is [None]
    when that raises [json.JSONDecodeError] or [ValidationError]; otherwise
    it carries the fields of the validated model. *)
Class Validators : Type := {
  SSESessionEvent : str -> option str;
  SSETextEvent : str -> option str;
  SSEResultEvent : str -> option (str * KoineUsage);
  SSEErrorEvent : str -> option (str * option str);
  GatewayErrorResponse : str -> option (str * str * option str)
}.

End Py.

Import Py.

(* ===================================================================== *)
(** ** Event reconciler: [_process_sse_stream] *)
(* ===================================================================== *)

Module Reconciler.

(** What an observer of the generator and of the futures can see, in the
    order in which it happens. *)
Inductive effect : Type :=
| Yielded (chunk : str)
| SessionSet (f : future str)
| UsageSet (f : future KoineUsage)
| TextSet (f : future str)
| EndOfStream.                    (* the [finally] block is entered *)

(** The three futures handed to the generator and its local variable. *)
Record state : Type := mkState {
  session_id_future : future str;
  usage_future : future KoineUsage;
  text_future : future str;
  accumulated_text : str;
  log : list effect
}.

Definition initial : state := mkState Pending Pending Pending [] [].

Definition with_session (f : future str) (st : state) : state :=
  mkState f (usage_future st) (text_future st) (accumulated_text st)
          (log st ++ [SessionSet f]).

Definition with_usage (f : future KoineUsage) (st : state) : state :=
  mkState (session_id_future st) f (text_future st) (accumulated_text st)
          (log st ++ [UsageSet f]).

Definition with_text (f : future str) (st : state) : state :=
  mkState (session_id_future st) (usage_future st) f (accumulated_text st)
          (log st ++ [TextSet f]).

Definition record (e : effect) (st : state) : state :=
  mkState (session_id_future st) (usage_future st) (text_future st)
          (accumulated_text st) (log st ++ [e]).

(** [if not session_id_future.done(): session_id_future.set_result(v)] *)
Definition resolve_session (v : str) (st : state) : state :=
  if done (session_id_future st) then st else with_session (Result v) st.

(** [if not text_future.done(): text_future.set_result(v)] *)
Definition resolve_text (v : str) (st : state) : state :=
  if done (text_future st) then st else with_text (Result v) st.

(** [if not f.done(): f.set_exception(error)], for each of the futures. *)
Definition fail_session (error : exn) (st : state) : state :=
  if done (session_id_future st) then st else with_session (Exception error) st.

Definition fail_usage (error : exn) (st : state) : state :=
  if done (usage_future st) then st else with_usage (Exception error) st.

Definition fail_text (error : exn) (st : state) : state :=
  if done (text_future st) then st else with_text (Exception error) st.

(** "Reject all unresolved futures": usage, then text, then session id. *)
Definition reject_unresolved (error : exn) (st : state) : state :=
  fail_session error (fail_text error (fail_usage error st)).

(** [accumulated_text += parsed.text; yield parsed.text] *)
Definition yield_text (text : str) (st : state) : state :=
  mkState (session_id_future st) (usage_future st) (text_future st)
          (accumulated_text st ++ text) (log st ++ [Yielded text]).

Definition is_critical (event_type : str) : bool :=
  existsb (eqb event_type)
          [lit "session"; lit "result"; lit "error"; lit "done"].

Definition parse_error (event_type : str) : exn :=
  Koine (mkKoineError
           (lit "Failed to parse critical SSE event: " ++ event_type)
           (lit "SSE_PARSE_ERROR") None).

Definition stream_error (error : str) (code : option str) : exn :=
  Koine (mkKoineError error (or_else code (lit "STREAM_ERROR")) None).

(** How the processing of one frame ends: the loop goes on to the next
    frame, the generator suspends at [yield], or an exception leaves the
    loop. *)
Inductive outcome : Type :=
| Continue (st : state)
| Yield (chunk : str) (st : state)
| Raise (e : exn) (st : state).

Section WithValidators.
Context {V : Validators}.

(** The handler [except (json.JSONDecodeError, ValidationError)]. *)
Definition on_parse_failure (event_type : str) (st : state) : outcome :=
  if is_critical event_type
  then Raise (parse_error event_type)
             (reject_unresolved (parse_error event_type) st)
  else Continue st.

(** The body of the [async for] loop on one frame. *)
Definition handle_event (event_type data : str) (st : state) : outcome :=
  if eqb event_type (lit "session") then
    match SSESessionEvent data with
    | Some sessionId => Continue (resolve_session sessionId st)
    | None => on_parse_failure event_type st
    end
  else if eqb event_type (lit "text") then
    match SSETextEvent data with
    | Some text => Yield text (yield_text text st)
    | None => on_parse_failure event_type st
    end
  else if eqb event_type (lit "result") then
    match SSEResultEvent data with
    | Some (sessionId, usage) =>
        match set_result (usage_future st) usage with
        | inl e => Raise e st
        | inr f => Continue (resolve_session sessionId (with_usage f st))
        end
    | None => on_parse_failure event_type st
    end
  else if eqb event_type (lit "error") then
    match SSEErrorEvent data with
    | Some (error, code) =>
        Raise (stream_error error code)
              (reject_unresolved (stream_error error code) st)
    | None => on_parse_failure event_type st
    end
  else if eqb event_type (lit "done") then
    Continue (resolve_text (accumulated_text st) st)
  else Continue st.

(** The [finally] block: "Handle stream ending without expected events". *)
Definition end_of_stream (st : state) : state :=
  let st0 := record EndOfStream st in
  let st1 :=
    fail_session
      (Koine (mkKoineError (lit "Stream ended without session ID")
                           (lit "NO_SESSION") None)) st0 in
  let st2 :=
    fail_usage
      (Koine (mkKoineError (lit "Stream ended without usage information")
                           (lit "NO_USAGE") None)) st1 in
  resolve_text (accumulated_text st2) st2.

(** An asynchronous generator object: not started yet, suspended at its
    [yield], or finished (returned, raised or closed). *)
Inductive gen_status : Type := Created | Suspended | Finished.

Record generator : Type := mkGen {
  status : gen_status;
  upstream : list frame;     (* what [_parse_sse_stream] has yet to yield *)
  vars : state
}.

(** The call [_process_sse_stream(response, ...)] with fresh futures; no
    line of the body runs before the first [anext]. *)
Definition create (frames : list frame) : generator :=
  mkGen Created frames initial.

(** What [await gen.__anext__()] gives to the consumer. *)
Inductive pulled : Type :=
| Item (chunk : str)
| StopAsyncIteration
| Raised (e : exn).

(** Running the body from where it stands until it yields, raises or the
    upstream is exhausted; in the last two cases the [finally] block runs. *)
Fixpoint resume (frames : list frame) (st : state) : pulled * generator :=
  match frames with
  | [] => (StopAsyncIteration, mkGen Finished [] (end_of_stream st))
  | (event_type, data) :: rest =>
      match handle_event event_type data st with
      | Continue st' => resume rest st'
      | Yield chunk st' => (Item chunk, mkGen Suspended rest st')
      | Raise e st' => (Raised e, mkGen Finished rest (end_of_stream st'))
      end
  end.

Definition anext (g : generator) : pulled * generator :=
  match status g with
  | Finished => (StopAsyncIteration, g)
  | Created | Suspended => resume (upstream g) (vars g)
  end.

(** [await gen.aclose()]: [GeneratorExit] is thrown in at the [yield] where
    the generator is suspended, no handler of the body catches it and the
    [finally] block runs.  A generator that was never started is only
    marked as finished: its body, [finally] included, never runs. *)
Definition aclose (g : generator) : generator :=
  match status g with
  | Created => mkGen Finished (upstream g) (vars g)
  | Suspended => mkGen Finished (upstream g) (end_of_stream (vars g))
  | Finished => g
  end.

(** The consumer: it pulls, or it abandons the iteration. *)
Inductive op : Type := Pull | Close.

Definition step (g : generator) (o : op) : generator :=
  match o with
  | Pull => snd (anext g)
  | Close => aclose g
  end.

Definition run (ops : list op) (g : generator) : generator :=
  fold_left step ops g.

(** The items the consumer received. *)
Fixpoint received (ops : list op) (g : generator) : list pulled :=
  match ops with
  | [] => []
  | Pull :: ops' => fst (anext g) :: received ops' (snd (anext g))
  | Close :: ops' => received ops' (aclose g)
  end.

End WithValidators.

(** The chunks of a log, in order. *)
Fixpoint yields (l : list effect) : list str :=
  match l with
  | [] => []
  | Yielded chunk :: l' => chunk :: yields l'
  | _ :: l' => yields l'
  end.

Definition is_end_of_stream (e : effect) : bool :=
  match e with EndOfStream => true | _ => false end.

(** How many times the [finally] block was entered. *)
Definition finalizations (l : list effect) : nat :=
  List.length (filter is_end_of_stream l).

(** The chunks among what the consumer received. *)
Fixpoint chunks (items : list pulled) : list str :=
  match items with
  | [] => []
  | Item chunk :: items' => chunk :: chunks items'
  | _ :: items' => chunks items'
  end.

(** One pending future becomes done; the text future is only ever resolved
    with the text accumulated so far. *)
Inductive settles : state -> state -> Prop :=
| settles_session f st :
    done (session_id_future st) = false -> done f = true ->
    settles st (with_session f st)
| settles_usage f st :
    done (usage_future st) = false -> done f = true ->
    settles st (with_usage f st)
| settles_text_failed e st :
    done (text_future st) = false ->
    settles st (with_text (Exception e) st)
| settles_text_resolved st :
    done (text_future st) = false ->
    settles st (with_text (Result (accumulated_text st)) st).

(** Any number of settlements, one after the other. *)
Inductive evolves : state -> state -> Prop :=
| evolves_refl st : evolves st st
| evolves_step st st' st'' :
    settles st st' -> evolves st' st'' -> evolves st st''.

(** A future after an attempt to settle it: what it was when it was done,
    the new outcome otherwise. *)
Definition settled {A} (f : future A) (otherwise : future A) : future A :=
  if done f then f else otherwise.

(** A future that is done keeps its outcome. *)
Definition retains (st st' : state) : Prop :=
  (done (session_id_future st) = true ->
   session_id_future st' = session_id_future st)
  /\ (done (usage_future st) = true -> usage_future st' = usage_future st)
  /\ (done (text_future st) = true -> text_future st' = text_future st).

(** The accumulated text is what was yielded, every resolution of the text
    future carries what had been yielded before it, and a resolved text
    future was resolved by a logged resolution. *)
Definition text_inv (st : state) : Prop :=
  accumulated_text st = List.concat (yields (log st))
  /\ (forall pre v post,
        log st = pre ++ TextSet (Result v) :: post ->
        v = List.concat (yields pre))
  /\ (forall v, text_future st = Result v ->
                exists pre post, log st = pre ++ TextSet (Result v) :: post).



(** The error of an [error] event read to the letter: the payload's message
    and code, [STREAM_ERROR] only when the payload has no code. *)
Definition error_with_payload_code (error : str) (code : option str) : exn :=
  Koine (mkKoineError error
           (match code with Some c => c | None => lit "STREAM_ERROR" end)
           None).

Definition NO_SESSION : exn :=
  Koine (mkKoineError (lit "Stream ended without session ID")
                      (lit "NO_SESSION") None).

Definition NO_USAGE : exn :=
  Koine (mkKoineError (lit "Stream ended without usage information")
                      (lit "NO_USAGE") None).

End Reconciler.

Import Reconciler.

(* ===================================================================== *)
(** ** Stream session: [_parse_error_response] and [stream_text] *)
(* ===================================================================== *)

Module Session.

(** What the gateway answers: the status line and the body, as the chunks
    [response.aiter_text()] delivers. *)
Record reply : Type := mkReply {
  reply_status : N;
  reply_reason : str;
  reply_body : list str
}.

(** [httpx.Response] of a request sent with [stream=True]: the body is on
    the wire until it is read. *)
Record Response : Type := mkResponse {
  status_code : N;
  reason_phrase : str;
  body_stream : list str;
  content : option str;
  is_closed : bool
}.

(** Calls made on the transport, in order. *)
Inductive call : Type := ResponseRead | ResponseClose | ClientClose.

Record transport : Type := mkTransport {
  response : Response;
  client_is_closed : bool;
  calls : list call
}.

(** [client.send(client.build_request(...), stream=True)] *)
Definition send (rp : reply) : transport :=
  mkTransport
    (mkResponse (reply_status rp) (reply_reason rp) (reply_body rp) None false)
    false [].

(** [response.is_success]: a 2xx status. *)
Definition is_success (r : Response) : bool :=
  ((200 <=? status_code r) && (status_code r <=? 299))%N.

(** [await response.aread()]: the whole body becomes the content and the
    response stream is closed. *)
Definition aread (t : transport) : transport :=
  let r := response t in
  mkTransport
    (mkResponse (status_code r) (reason_phrase r) (body_stream r)
                (Some (List.concat (body_stream r))) true)
    (client_is_closed t) (calls t ++ [ResponseRead]).

(** [await response.aclose()] *)
Definition response_aclose (t : transport) : transport :=
  let r := response t in
  mkTransport
    (mkResponse (status_code r) (reason_phrase r) (body_stream r)
                (content r) true)
    (client_is_closed t) (calls t ++ [ResponseClose]).

(** [await client.aclose()] *)
Definition client_aclose (t : transport) : transport :=
  mkTransport (response t) true (calls t ++ [ClientClose]).

Definition http_error (r : Response) : KoineError :=
  mkKoineError
    (lit "HTTP " ++ of_N (status_code r) ++ lit " " ++ reason_phrase r)
    (lit "HTTP_ERROR") None.

Section WithValidators.
Context {V : Validators}.

(** [_parse_error_response(response)]: the error it returns, or the
    exception [response.json()] raises when the content was not read. *)
Definition parse_error_response (r : Response) : exn + KoineError :=
  match content r with
  | None => inl ResponseNotRead
  | Some body =>
      match GatewayErrorResponse body with
      | Some (error, code, rawText) => inr (mkKoineError error code rawText)
      | None => inr (http_error r)
      end
  end.

(** The generator [text_stream_generator] around the reconciler. *)
Record text_stream : Type := mkStream {
  ts_status : gen_status;
  process : generator
}.

Definition session : Type := (transport * text_stream)%type.

(** [stream_text(config, prompt=...)] once the gateway has answered: the
    exception it raises or the stream it returns, with the transport. *)
Definition stream_text (rp : reply) : transport * (exn + text_stream) :=
  let t := send rp in
  if negb (is_success (response t)) then
    let t' := client_aclose (aread t) in
    (t', inl (match parse_error_response (response t') with
              | inl e => e
              | inr error => Koine error
              end))
  else
    (t, inr (mkStream Created
                      (create (parse_sse_stream (body_stream (response t)))))).

(** The [finally] block of [text_stream_generator]. *)
Definition release (t : transport) : transport :=
  client_aclose (response_aclose t).

Definition ts_anext (s : session) : pulled * session :=
  let '(t, ts) := s in
  match ts_status ts with
  | Finished => (StopAsyncIteration, s)
  | Created | Suspended =>
      let '(r, g) := anext (process ts) in
      match r with
      | Item chunk => (Item chunk, (t, mkStream Suspended g))
      | _ => (r, (release t, mkStream Finished g))
      end
  end.

(** Closing the outer generator.  Suspended at its [yield], it runs its
    [finally] block; the reconciler it was iterating is then unreachable and
    the event loop's finalizer for asynchronous generators closes it.  Never
    started, neither body runs. *)
Definition ts_aclose (s : session) : session :=
  let '(t, ts) := s in
  match ts_status ts with
  | Created => (t, mkStream Finished (aclose (process ts)))
  | Suspended => (release t, mkStream Finished (aclose (process ts)))
  | Finished => s
  end.

Definition ts_step (s : session) (o : op) : session :=
  match o with
  | Pull => snd (ts_anext s)
  | Close => ts_aclose s
  end.

Definition ts_run (ops : list op) (s : session) : session :=
  fold_left ts_step ops s.

End WithValidators.



End Session.

Import Session.

(* ===================================================================== *)
(** ** Sample payloads and validators, to evaluate the model *)
(* ===================================================================== *)

Module Sample.

Definition dq : char := 34%N.

(** A JSON string literal without escapes. *)
Definition quoted (s : str) : str := dq :: s ++ [dq].

Definition endswith (p s : str) : bool := startswith (rev p) (rev s).

(** The text between a prefix and a suffix. *)
Definition between (pre post s : str) : option str :=
  if startswith pre s && endswith post (skipn (List.length pre) s)
  then Some (firstn (List.length s - List.length pre - List.length post)
                    (skipn (List.length pre) s))
  else None.

(** [{"key": "value"}] *)
Definition obj1 (key value : str) : str :=
  lit "{" ++ quoted key ++ lit ": " ++ quoted value ++ lit "}".

(** [{"key1": "value1", "key2": "value2"}] *)
Definition obj2 (key1 value1 key2 value2 : str) : str :=
  lit "{" ++ quoted key1 ++ lit ": " ++ quoted value1 ++ lit ", "
      ++ quoted key2 ++ lit ": " ++ quoted value2 ++ lit "}".

Definition field1 (key : str) (data : str) : option str :=
  between (lit "{" ++ quoted key ++ lit ": " ++ [dq]) (dq :: lit "}") data.

Definition field2 (key1 key2 : str) (data : str) : option (str * str) :=
  match field1 key1 data with
  | Some inner =>
      split1 (dq :: lit ", " ++ quoted key2 ++ lit ": " ++ [dq]) inner
  | None => None
  end.

Definition usage_5_3_8 : KoineUsage := mkUsage 5 3 8.

(** [{"sessionId": "<id>", "usage": {...}}] with the usage of the
    test-suite's basic stream. *)
Definition result_payload (sessionId : str) : str :=
  lit "{" ++ quoted (lit "sessionId") ++ lit ": " ++ quoted sessionId
      ++ lit ", " ++ quoted (lit "usage") ++ lit ": {"
      ++ quoted (lit "inputTokens") ++ lit ": 5, "
      ++ quoted (lit "outputTokens") ++ lit ": 3, "
      ++ quoted (lit "totalTokens") ++ lit ": 8}}".

Definition result_fields (data : str) : option (str * KoineUsage) :=
  match between (lit "{" ++ quoted (lit "sessionId") ++ lit ": " ++ [dq])
                (dq :: lit ", " ++ quoted (lit "usage") ++ lit ": {"
                    ++ quoted (lit "inputTokens") ++ lit ": 5, "
                    ++ quoted (lit "outputTokens") ++ lit ": 3, "
                    ++ quoted (lit "totalTokens") ++ lit ": 8}}") data with
  | Some sessionId => Some (sessionId, usage_5_3_8)
  | None => None
  end.

Definition error_fields (data : str) : option (str * option str) :=
  match field2 (lit "error") (lit "code") data with
  | Some (error, code) => Some (error, Some code)
  | None =>
      match field1 (lit "error") data with
      | Some error => Some (error, None)
      | None => None
      end
  end.

Definition gateway_error_fields (data : str)
  : option (str * str * option str) :=
  match field2 (lit "error") (lit "code") data with
  | Some (error, code) => Some (error, code, None)
  | None => None
  end.

(** Validators that accept the flat, escape-free payloads above and reject
    everything else. *)
#[export] Instance validators : Validators := {|
  SSESessionEvent := field1 (lit "sessionId");
  SSETextEvent := field1 (lit "text");
  SSEResultEvent := result_fields;
  SSEErrorEvent := error_fields;
  GatewayErrorResponse := gateway_error_fields
|}.

(** The wire text of one frame, terminated by the blank line. *)
Definition sse (event_type data : str) : str :=
  lit "event: " ++ event_type ++ [LF] ++ lit "data: " ++ data ++ [LF; LF].

(** The stream of the test-suite's [test_basic_stream]. *)
Definition basic_stream : str :=
  sse (lit "session") (obj1 (lit "sessionId") (lit "stream-session"))
  ++ sse (lit "text") (obj1 (lit "text") (lit "Hello"))
  ++ sse (lit "text") (obj1 (lit "text") (lit ", world!"))
  ++ sse (lit "result") (result_payload (lit "stream-session"))
  ++ sse (lit "done") (lit "{}").

Definition basic_frames : list frame := parse_sse_stream [basic_stream].

(** Two [result] events in a row. *)
Definition duplicate_result_frames : list frame :=
  [(lit "result", result_payload (lit "s"));
   (lit "result", result_payload (lit "s"))].

(** [{"error": "boom", "code": ""}]: a code is supplied and it is empty. *)
Definition empty_code_payload : str :=
  obj2 (lit "error") (lit "boom") (lit "code") [].

(** [{"error": "Rate limit exceeded", "code": "RATE_LIMIT"}] *)
Definition rate_limit_payload : str :=
  obj2 (lit "error") (lit "Rate limit exceeded") (lit "code")
       (lit "RATE_LIMIT").


(** A segment whose data line comes before its event line. *)
Definition data_first_segment : str :=
  lit "data: {}" ++ [LF] ++ lit "event: done".


Definition ok_reply : reply := mkReply 200 (lit "OK") [basic_stream].

End Sample.

(* ===================================================================== *)
(** ** Requests: [_build_request_body], [generate_text], [generate_object] *)
(* ===================================================================== *)

Module Gateway.

(** A [dict] with string keys, in insertion order. *)
Definition dict (A : Type) : Type := list (str * A).

(** [d.get(key)] *)
Fixpoint get {A} (key : str) (d : dict A) : option A :=
  match d with
  | [] => None
  | (k, v) :: d' => if eqb key k then Some v else get key d'
  end.

(** [_build_request_body]: the keyword arguments, in the order
    they were passed, without those that are [None]. *)
Fixpoint build_request_body {A} (kwargs : dict (option A)) : dict A :=
  match kwargs with
  | [] => []
  | (k, Some v) :: kwargs' => (k, v) :: build_request_body kwargs'
  | (_, None) :: kwargs' => build_request_body kwargs'
  end.

(** [KoineConfig] of [types.py]; the timeout is a float that is only handed
    to the HTTP client. *)
Record KoineConfig {float : Type} : Type := mkConfig {
  base_url : str;
  timeout : float;
  auth_key : str;
  model : option str
}.
Arguments KoineConfig : clear implicits.

(** The values of a request body: strings, and the JSON schema of
    [generate_object]. *)
Inductive value (S : Type) : Type :=
| Str (s : str)
| Schema (schema : S).
Arguments Str {S} s.
Arguments Schema {S} schema.

Record request (S : Type) : Type := mkRequest {
  url : str;
  headers : dict str;
  json : dict (value S)
}.

Definition request_headers {float} (config : KoineConfig float) : dict str :=
  [(lit "Content-Type", lit "application/json");
   (lit "Authorization", lit "Bearer " ++ auth_key config)].

(** The request of [generate_text]. *)
Definition text_request {float S} (config : KoineConfig float)
           (prompt : str) (system session_id : option str) : request S :=
  mkRequest
    (base_url config ++ lit "/generate-text")
    (request_headers config)
    (build_request_body
       [(lit "system", option_map Str system);
        (lit "prompt", Some (Str prompt));
        (lit "sessionId", option_map Str session_id);
        (lit "model", option_map Str (model config))]).

(** The request of [generate_object]. *)
Definition object_request {float S} (config : KoineConfig float)
           (prompt : str) (json_schema : S)
           (system session_id : option str) : request S :=
  mkRequest
    (base_url config ++ lit "/generate-object")
    (request_headers config)
    (build_request_body
       [(lit "system", option_map Str system);
        (lit "prompt", Some (Str prompt));
        (lit "schema", Some (Schema json_schema));
        (lit "sessionId", option_map Str session_id);
        (lit "model", option_map Str (model config))]).

(** The request of [stream_text]. *)
Definition stream_request {float S} (config : KoineConfig float)
           (prompt : str) (system session_id : option str) : request S :=
  mkRequest
    (base_url config ++ lit "/stream")
    (request_headers config)
    (build_request_body
       [(lit "system", option_map Str system);
        (lit "prompt", Some (Str prompt));
        (lit "sessionId", option_map Str session_id);
        (lit "model", option_map Str (model config))]).

(** [await client.post(...)]: the response arrives with its body read. *)
Definition post (rp : reply) : transport :=
  mkTransport
    (mkResponse (reply_status rp) (reply_reason rp) (reply_body rp)
                (Some (List.concat (reply_body rp))) true)
    false [].

(** The response models of [types.py] composed with [response.json()]:
    the fields of the validated model, or the text of the exception
    ([ValueError] or [ValidationError]) that was raised. *)
Class ResponseModels (Obj : Type) : Type := {
  GatewayTextResponse : str -> str + (str * KoineUsage * str);
  GatewayObjectResponse : str -> str + (Obj * str * KoineUsage * str)
}.

(** The Pydantic model class handed to [generate_object]. *)
Record schema_class (Obj S T : Type) : Type := mkSchema {
  model_json_schema : S;
  model_validate : Obj -> str + T
}.

(** [GenerateTextResult] of [types.py]. *)
Record GenerateTextResult : Type := mkTextResult {
  text : str;
  usage : KoineUsage;
  session_id : str
}.

(** [GenerateObjectResult[T]] of [types.py]. *)
Record GenerateObjectResult (T : Type) : Type := mkObjectResult {
  object : T;
  raw_text_out : str;
  usage_out : KoineUsage;
  session_id_out : str
}.

Definition invalid_response (e : str) : exn :=
  Koine (mkKoineError (lit "Invalid response from Koine gateway: " ++ e)
                      (lit "INVALID_RESPONSE") None).

Definition validation_error (e rawText : str) : exn :=
  Koine (mkKoineError (lit "Response validation failed: " ++ e)
                      (lit "VALIDATION_ERROR") (Some rawText)).

(** [raise _parse_error_response(response)] *)
Definition raise_error_response {V : Validators} (r : Response) : exn :=
  match parse_error_response r with
  | inl e => e
  | inr error => Koine error
  end.

Section WithModels.
Context {V : Validators} {Obj : Type} {M : ResponseModels Obj}.
Context {float S : Type}.

(** [generate_text(config, prompt=..., system=..., session_id=...)] against
    a gateway: what it raises or returns, and the transport once the
    [async with] block is left. *)
Definition generate_text (gateway : request S -> reply)
           (config : KoineConfig float) (prompt : str)
           (system session_id : option str)
  : transport * (exn + GenerateTextResult) :=
  let t := post (gateway (text_request config prompt system session_id)) in
  let outcome :=
    if negb (is_success (response t)) then
      inl (raise_error_response (response t))
    else
      match content (response t) with
      | None => inl ResponseNotRead
      | Some body =>
          match GatewayTextResponse body with
          | inl e => inl (invalid_response e)
          | inr (text, usage, sessionId) =>
              inr (mkTextResult text usage sessionId)
          end
      end in
  (client_aclose t, outcome).

(** [generate_object(config, prompt=..., schema=..., ...)] *)
Definition generate_object {T : Type} (gateway : request S -> reply)
           (config : KoineConfig float) (prompt : str)
           (schema : schema_class Obj S T)
           (system session_id : option str)
  : transport * (exn + GenerateObjectResult T) :=
  let json_schema := model_json_schema schema in
  let t := post (gateway (object_request config prompt json_schema
                                         system session_id)) in
  let outcome :=
    if negb (is_success (response t)) then
      inl (raise_error_response (response t))
    else
      match content (response t) with
      | None => inl ResponseNotRead
      | Some body =>
          match GatewayObjectResponse body with
          | inl e => inl (invalid_response e)
          | inr (object, rawText, usage, sessionId) =>
              match model_validate schema object with
              | inl e => inl (validation_error e rawText)
              | inr validated_object =>
                  inr (mkObjectResult validated_object rawText usage
                                      sessionId)
              end
          end
      end in
  (client_aclose t, outcome).

(** [stream_text(config, prompt=..., ...)] against a gateway. *)
Definition stream_text_call (gateway : request S -> reply)
           (config : KoineConfig float) (prompt : str)
           (system session_id : option str)
  : transport * (exn + text_stream) :=
  stream_text (gateway (stream_request config prompt system session_id)).

End WithModels.

End Gateway.

(* ===================================================================== *)
(** ** The accessors of [StreamTextResult] and the test-suite's encoder *)
(* ===================================================================== *)

Module Result.

(** [await f]: the result, the exception, or nothing yet. *)
Definition await {A} (f : future A) : option (exn + A) :=
  match f with
  | Pending => None
  | Result v => Some (inr v)
  | Exception e => Some (inl e)
  end.

(** [StreamTextResult.session_id()], [.usage()] and [.text()], on the
    futures the stream's reconciler holds. *)
Definition session_id (ts : text_stream) : option (exn + str) :=
  await (session_id_future (vars (process ts))).

Definition usage (ts : text_stream) : option (exn + KoineUsage) :=
  await (usage_future (vars (process ts))).

Definition text (ts : text_stream) : option (exn + str) :=
  await (text_future (vars (process ts))).

(** The texts of the [text] events that validate, in order. *)
Fixpoint texts {V : Validators} (frames : list frame) : list str :=
  match frames with
  | [] => []
  | (event_type, data) :: frames' =>
      if eqb event_type (lit "text") then
        match SSETextEvent data with
        | Some text => text :: texts frames'
        | None => texts frames'
        end
      else texts frames'
  end.

(** No pull raised. *)
Fixpoint no_raise (items : list pulled) : bool :=
  match items with
  | [] => true
  | Raised _ :: _ => false
  | _ :: items' => no_raise items'
  end.

(** Some pull found the generator exhausted. *)
Fixpoint stopped (items : list pulled) : bool :=
  match items with
  | [] => false
  | StopAsyncIteration :: _ => true
  | _ :: items' => stopped items'
  end.

(** ["\n".join(lines)] *)
Fixpoint join_lines (lines : list str) : str :=
  match lines with
  | [] => []
  | [line] => line
  | line :: lines' => line ++ LF :: join_lines lines'
  end.

(** [_sse_response(events)] of the test-suite, on payloads that are
    already serialized. *)
Definition sse_response (events : list frame) : str :=
  join_lines
    (flat_map (fun '(event_type, data) =>
                 [lit "event: " ++ event_type; lit "data: " ++ data; []])
              events).

(** A string without a newline. *)
Definition one_line (s : str) : Prop := Forall (fun c => c <> LF) s.

(** A frame that the wire format carries unchanged. *)
Definition well_formed (f : frame) : Prop :=
  fst f <> [] /\ snd f <> [] /\ one_line (fst f) /\ one_line (snd f).

(** No future has an exception it did not have before. *)
Definition quiet (st st' : state) : Prop :=
  forall e,
    (session_id_future st' = Exception e -> session_id_future st = Exception e)
    /\ (usage_future st' = Exception e -> usage_future st = Exception e)
    /\ (text_future st' = Exception e -> text_future st = Exception e).

(** A future has an exception it did not have before only if it is [x]. *)
Definition fails_with (x : exn) (st st' : state) : Prop :=
  forall e,
    (session_id_future st' = Exception e ->
     session_id_future st = Exception e \/ e = x)
    /\ (usage_future st' = Exception e ->
        usage_future st = Exception e \/ e = x)
    /\ (text_future st' = Exception e ->
        text_future st = Exception e \/ e = x).

(** Every character is white space. *)
Definition blank (s : str) : Prop := Forall (fun c => isspace c = true) s.

(** The frames that come before the first [done] event. *)
Fixpoint before_done (frames : list frame) : list frame :=
  match frames with
  | [] => []
  | (event_type, data) :: frames' =>
      if eqb event_type (lit "done") then []
      else (event_type, data) :: before_done frames'
  end.

(** The text future is on its way to the value [full]: resolved with it,
    or pending with an accumulated text that the frames still to come
    before a [done] event complete to it. *)
Definition heads_for {V : Validators}
           (full : str) (st : state) (frames : list frame) : Prop :=
  match text_future st with
  | Pending =>
      accumulated_text st ++ List.concat (texts (before_done frames)) = full
  | Result v => v = full
  | Exception _ => False
  end.

End Result.

(** Inputs on which the further properties are evaluated. *)
Module Fixtures.

Definition two_events : list frame :=
  [(lit "session", Sample.obj1 (lit "sessionId") (lit "s-1"));
   (lit "text", Sample.obj1 (lit "text") (lit "Hi"))].

(** A stream cut in the middle of a line. *)
Definition two_chunks : list str :=
  [lit "event: text" ++ [LF] ++ lit "da";
   lit "ta: payload" ++ [LF; LF]].

(** A text event, an error event, and a text event that is never read. *)
Definition text_error_text : list frame :=
  [(lit "text", Sample.obj1 (lit "text") (lit "Partial"));
   (lit "error", Sample.rate_limit_payload);
   (lit "text", Sample.obj1 (lit "text") (lit "late"))].

(** A text event after the [done] event. *)
Definition text_after_done : list frame :=
  [(lit "text", Sample.obj1 (lit "text") (lit "Hello"));
   (lit "done", lit "{}");
   (lit "text", Sample.obj1 (lit "text") (lit " again"))].

(** Two frames with carriage returns before the newlines. *)
Definition crlf_stream : str :=
  lit "event: text" ++ [13%N; LF] ++ lit "data: one" ++ [13%N; LF; 13%N; LF]
  ++ lit "event: text" ++ [13%N; LF] ++ lit "data: two"
  ++ [13%N; LF; 13%N; LF].

Definition kwargs : Gateway.dict (option str) :=
  [(lit "system", None); (lit "prompt", Some (lit "Say hello"));
   (lit "sessionId", None); (lit "model", Some (lit "sonnet"))].

Definition config : Gateway.KoineConfig nat :=
  Gateway.mkConfig (lit "http://localhost:3100") 30 (lit "test-key")
                   (Some (lit "sonnet")).

(** A gateway that refuses every request. *)
Definition unauthorized (S : Type) (_ : Gateway.request S) : reply :=
  mkReply 401 (lit "Unauthorized")
          [Sample.obj2 (lit "error") (lit "Invalid API key")
                       (lit "code") (lit "UNAUTHORIZED")].

(** A gateway that answers every request with the same 200 body. *)
Definition answers (S : Type) (body : str) (_ : Gateway.request S) : reply :=
  mkReply 200 (lit "OK") [body].

(** Response models that read the body ["person"] as an object with the
    raw text ["{}"], and reject everything else. *)
Definition models : Gateway.ResponseModels str := {|
  Gateway.GatewayTextResponse body :=
    if eqb body (lit "hello")
    then inr (lit "Hello, world!", Sample.usage_5_3_8, lit "session-123")
    else inl (lit "Expecting value");
  Gateway.GatewayObjectResponse body :=
    if eqb body (lit "person")
    then inr (lit "Alice", lit "{}", Sample.usage_5_3_8, lit "s")
    else inl (lit "Expecting value")
|}.

(** A schema that accepts no object. *)
Definition strict_schema : Gateway.schema_class str unit nat :=
  Gateway.mkSchema tt (fun _ => inl (lit "age: field required")).

(** A schema that accepts every object and measures it. *)
Definition lax_schema : Gateway.schema_class str unit nat :=
  Gateway.mkSchema tt (fun object => inr (List.length object)).

End Fixtures.

(* ===================================================================== *)
(** ** Facts about strings *)
(* ===================================================================== *)

Section StringFacts.

Lemma eqb_eq (a b : str) : eqb a b = true <-> a = b.
Proof.
  revert b; induction a as [|x a IH]; intros [|y b]; simpl;
    try (split; [discriminate | congruence]); try tauto.
  rewrite andb_true_iff, N.eqb_eq, IH.
  split; [intros [-> ->]; reflexivity | intros H; inversion H; auto].
Qed.

Lemma startswith_length (p s : str) :
  startswith p s = true -> (List.length p <= List.length s)%nat.
Proof.
  revert s; induction p as [|x p IH]; intros [|y s]; simpl; try lia;
    try discriminate.
  rewrite andb_true_iff; intros [_ H]; apply IH in H; lia.
Qed.

Lemma startswith_decompose (p s : str) :
  startswith p s = true -> s = p ++ skipn (List.length p) s.
Proof.
  revert s; induction p as [|x p IH]; intros [|y s]; simpl; try reflexivity;
    try discriminate.
  rewrite andb_true_iff, N.eqb_eq; intros [-> H].
  f_equal; apply IH, H.
Qed.

Lemma startswith_app (p s c : str) :
  (List.length p <= List.length s)%nat ->
  startswith p (s ++ c) = startswith p s.
Proof.
  revert s; induction p as [|x p IH]; intros [|y s]; simpl; try reflexivity;
    try lia.
  intros H; rewrite IH by lia; reflexivity.
Qed.

Lemma split1_decompose (sep s a b : str) :
  split1 sep s = Some (a, b) -> s = a ++ sep ++ b.
Proof.
  revert a b; induction s as [|x s IH]; intros a b.
  - simpl. destruct (startswith sep []) eqn:E; [|discriminate].
    intros H; inversion H; subst; clear H.
    destruct sep; [reflexivity | discriminate].
  - cbn [split1]. destruct (startswith sep (x :: s)) eqn:E.
    + intros H; inversion H; subst; clear H.
      simpl; apply startswith_decompose, E.
    + destruct (split1 sep s) as [[a' b']|]; [|discriminate].
      intros H; inversion H; subst; clear H.
      simpl; f_equal; apply IH; reflexivity.
Qed.

Lemma split1_app (sep s c a b : str) :
  split1 sep s = Some (a, b) -> split1 sep (s ++ c) = Some (a, b ++ c).
Proof.
  revert a b; induction s as [|x s IH]; intros a b.
  - simpl. destruct (startswith sep []) eqn:E; [|discriminate].
    intros H; inversion H; subst; clear H.
    destruct sep; [|discriminate].
    destruct c; reflexivity.
  - cbn [split1 app]. destruct (startswith sep (x :: s)) eqn:E.
    + intros H; inversion H; subst; clear H.
      pose proof (startswith_length _ _ E) as L.
      change (x :: s ++ c) with ((x :: s) ++ c).
      rewrite startswith_app, E by exact L.
      rewrite skipn_app.
      replace (List.length sep - List.length (x :: s))%nat with 0%nat by lia.
      reflexivity.
    + destruct (split1 sep s) as [[a' b']|] eqn:S; [|discriminate].
      intros H; inversion H; subst; clear H.
      pose proof (split1_decompose _ _ S) as D.
      assert (L : (List.length sep <= List.length (x :: s))%nat).
      { rewrite D; simpl; rewrite !length_app; lia. }
      change (x :: s ++ c) with ((x :: s) ++ c).
      rewrite startswith_app, E by exact L.
      rewrite (IH _ _ eq_refl); reflexivity.
Qed.

End StringFacts.

(* ===================================================================== *)
(** ** The frame decoder *)
(* ===================================================================== *)

Section DecoderFacts.

Lemma split1_SEP_shorter (s a b : str) :
  split1 SEP s = Some (a, b) -> (List.length b < List.length s)%nat.
Proof.
  intros H; apply split1_decompose in H; subst s.
  rewrite !length_app; simpl; lia.
Qed.

(** The loop needs no more turns than the buffer has characters. *)
Lemma drain_fuel_enough (n m : nat) (buffer : str) :
  (List.length buffer <= n)%nat -> (List.length buffer <= m)%nat ->
  drain_fuel n buffer = drain_fuel m buffer.
Proof.
  revert m buffer; induction n as [|n IH]; intros m buffer Hn Hm.
  - destruct buffer; [|simpl in Hn; lia].
    destruct m; reflexivity.
  - destruct m as [|m].
    + destruct buffer; [reflexivity | simpl in Hm; lia].
    + simpl. destruct (split1 SEP buffer) as [[event_str rest]|] eqn:E;
        [|reflexivity].
      apply split1_SEP_shorter in E.
      rewrite (IH m rest) by lia. reflexivity.
Qed.

(** The equation of the [while] loop. *)
Lemma drain_unfold (buffer : str) :
  drain buffer =
  match split1 SEP buffer with
  | None => ([], buffer)
  | Some (event_str, rest) =>
      let '(frames, buffer') := drain rest in
      (emit event_str ++ frames, buffer')
  end.
Proof.
  unfold drain. destruct buffer as [|c buffer]; [reflexivity|].
  cbn [List.length drain_fuel].
  destruct (split1 SEP (c :: buffer)) as [[event_str rest]|] eqn:E;
    [|reflexivity].
  apply split1_SEP_shorter in E; simpl in E.
  rewrite (drain_fuel_enough (n := List.length buffer)
                             (m := List.length rest)) by lia.
  reflexivity.
Qed.

(** The loop stops exactly when the separator is gone. *)
Lemma drain_residual (buffer : str) :
  split1 SEP (snd (drain buffer)) = None.
Proof.
  remember (List.length buffer) as n eqn:Hn.
  revert buffer Hn; induction n as [n IH] using lt_wf_ind; intros buffer Hn.
  rewrite drain_unfold.
  destruct (split1 SEP buffer) as [[event_str rest]|] eqn:E; [|exact E].
  pose proof (split1_SEP_shorter _ E) as L.
  specialize (IH (List.length rest) ltac:(lia) rest eq_refl).
  destruct (drain rest); exact IH.
Qed.

Lemma drain_without_separator (buffer : str) :
  split1 SEP buffer = None -> drain buffer = ([], buffer).
Proof. intros H; rewrite drain_unfold, H; reflexivity. Qed.

(** Draining a buffer to which text is appended: what the buffer alone
    yields, then what its residue followed by the text yields. *)
Lemma drain_app (buffer chunk : str) :
  drain (buffer ++ chunk) =
  let '(frames, rest) := drain buffer in
  let '(frames', rest') := drain (rest ++ chunk) in
  (frames ++ frames', rest').
Proof.
  remember (List.length buffer) as n eqn:Hn.
  revert buffer Hn; induction n as [n IH] using lt_wf_ind; intros buffer Hn.
  rewrite (drain_unfold buffer).
  destruct (split1 SEP buffer) as [[event_str rest]|] eqn:E.
  - rewrite (drain_unfold (buffer ++ chunk)), (split1_app _ _ chunk E).
    pose proof (split1_SEP_shorter _ E) as L.
    rewrite (IH (List.length rest) ltac:(lia) rest eq_refl).
    destruct (drain rest) as [frames rest0].
    destruct (drain (rest0 ++ chunk)) as [frames' rest'].
    rewrite app_assoc; reflexivity.
  - destruct (drain (buffer ++ chunk)); reflexivity.
Qed.

(** Feeding chunks one at a time is draining their concatenation. *)
Lemma feed_all_concat (buffer : str) (chunks : list str) :
  split1 SEP buffer = None ->
  feed_all buffer chunks = drain (buffer ++ List.concat chunks).
Proof.
  revert buffer; induction chunks as [|chunk chunks IH]; intros buffer H.
  - simpl. rewrite app_nil_r, drain_without_separator by exact H.
    reflexivity.
  - cbn [feed_all List.concat].
    rewrite app_assoc, (drain_app (buffer ++ chunk)).
    pose proof (drain_residual (buffer ++ chunk)) as R.
    destruct (drain (buffer ++ chunk)) as [frames rest]; simpl in R.
    rewrite (IH rest R). reflexivity.
Qed.

Lemma parse_sse_stream_concat (chunks : list str) :
  parse_sse_stream chunks =
  let '(frames, buffer) := drain (List.concat chunks) in
  frames ++ flush buffer.
Proof.
  unfold parse_sse_stream.
  rewrite feed_all_concat by reflexivity. reflexivity.
Qed.

(** C3: feeding the chunks of any partition of a raw string one at a time,
    final flush of the residual buffer included, yields the same frames in
    the same order as feeding the whole string as one chunk. *)
Theorem chunk_boundary_independence (chunks : list str) :
  parse_sse_stream chunks = parse_sse_stream [List.concat chunks].
Proof.
  rewrite (parse_sse_stream_concat chunks),
          (parse_sse_stream_concat [List.concat chunks]).
  simpl; rewrite app_nil_r; reflexivity.
Qed.

Lemma segments_fuel_enough (n m : nat) (text : str) :
  (List.length text <= n)%nat -> (List.length text <= m)%nat ->
  segments_fuel n text = segments_fuel m text.
Proof.
  revert m text; induction n as [|n IH]; intros m text Hn Hm.
  - destruct text; [|simpl in Hn; lia].
    destruct m; reflexivity.
  - destruct m as [|m].
    + destruct text; [reflexivity | simpl in Hm; lia].
    + simpl. destruct (split1 SEP text) as [[segment rest]|] eqn:E;
        [|reflexivity].
      apply split1_SEP_shorter in E.
      rewrite (IH m rest) by lia. reflexivity.
Qed.

Lemma segments_unfold (text : str) :
  segments text =
  match split1 SEP text with
  | None => [text]
  | Some (segment, rest) => segment :: segments rest
  end.
Proof.
  unfold segments. destruct text as [|c text]; [reflexivity|].
  cbn [List.length segments_fuel].
  destruct (split1 SEP (c :: text)) as [[segment rest]|] eqn:E;
    [|reflexivity].
  apply split1_SEP_shorter in E; simpl in E.
  rewrite (segments_fuel_enough (n := List.length text)
                                (m := List.length rest)) by lia.
  reflexivity.
Qed.

(** The loop and the final flush together visit the segments in order. *)
Lemma drain_flush_segments (text : str) :
  fst (drain text) ++ flush (snd (drain text)) =
  flat_map emit (segments text).
Proof.
  remember (List.length text) as n eqn:Hn.
  revert text Hn; induction n as [n IH] using lt_wf_ind; intros text Hn.
  rewrite drain_unfold, segments_unfold.
  destruct (split1 SEP text) as [[segment rest]|] eqn:E.
  - pose proof (split1_SEP_shorter _ E) as L.
    specialize (IH (List.length rest) ltac:(lia) rest eq_refl).
    destruct (drain rest) as [frames buffer]; simpl in *.
    rewrite <- IH, app_assoc; reflexivity.
  - simpl. rewrite app_nil_r; reflexivity.
Qed.

(** What the [for] loop over the lines leaves in its two variables. *)
Lemma scan_lines_origin (lines : list str) (e0 d0 e d : str) :
  fold_left scan_line lines (e0, d0) = (e, d) ->
  (e = e0 \/ exists line, In line lines
                          /\ startswith EVENT_PREFIX line = true
                          /\ e = skipn 7 line)
  /\ (d = d0 \/ exists line, In line lines
                             /\ startswith EVENT_PREFIX line = false
                             /\ startswith DATA_PREFIX line = true
                             /\ d = skipn 6 line).
Proof.
  revert e0 d0; induction lines as [|line lines IH]; intros e0 d0 H.
  - simpl in H; inversion H; auto.
  - cbn [fold_left] in H. unfold scan_line at 2 in H.
    destruct (startswith EVENT_PREFIX line) eqn:Ev;
      [|destruct (startswith DATA_PREFIX line) eqn:Da];
      apply IH in H; destruct H as [[He|(l & Hl & Hp & He)]
                                      [Hd|(l' & Hl' & Hn' & Hp' & Hd)]];
      split;
      solve [ now left
            | right; exists line; simpl; subst; auto
            | right; exists l; simpl; auto
            | right; exists l'; simpl; auto ].
Qed.

Lemma parse_event_at_most_one (event_str : str) :
  (List.length (parse_event event_str) <= 1)%nat.
Proof.
  unfold parse_event. destruct (scan_lines event_str) as [e d].
  destruct (truthy e && truthy d); simpl; lia.
Qed.

Lemma parse_event_lines (event_str event_type data : str) :
  In (event_type, data) (parse_event event_str) ->
  parse_event event_str = [(event_type, data)]
  /\ event_type <> [] /\ data <> []
  /\ (exists line, In line (split LF event_str)
                   /\ startswith EVENT_PREFIX line = true
                   /\ event_type = skipn 7 line)
  /\ (exists line, In line (split LF event_str)
                   /\ startswith EVENT_PREFIX line = false
                   /\ startswith DATA_PREFIX line = true
                   /\ data = skipn 6 line).
Proof.
  unfold parse_event, scan_lines.
  destruct (fold_left scan_line (split LF event_str) ([], [])) as [e d] eqn:F.
  destruct (truthy e && truthy d) eqn:T; [|intros []].
  intros [H|[]]; inversion H; subst; clear H.
  apply andb_true_iff in T; destruct T as [Te Td].
  apply scan_lines_origin in F; destruct F as [Fe Fd].
  split; [reflexivity|].
  split; [intros ->; discriminate|].
  split; [intros ->; discriminate|].
  split.
  - destruct Fe as [->|Fe]; [discriminate | exact Fe].
  - destruct Fd as [->|Fd]; [discriminate | exact Fd].
Qed.

(** [event_then_data] says what its name says. *)
Lemma event_then_data_spec (lines : list str) :
  event_then_data lines = true <->
  exists before event_line between data_line after,
    lines = before ++ event_line :: between ++ data_line :: after
    /\ startswith EVENT_PREFIX event_line = true
    /\ startswith DATA_PREFIX data_line = true.
Proof.
  induction lines as [|line lines IH]; simpl.
  - split; [discriminate|].
    intros ([|? ?] & ? & ? & ? & ? & H & _); discriminate H.
  - rewrite orb_true_iff, andb_true_iff, IH, existsb_exists. split.
    + intros [[E (d & Hd & D)]|(b & e & m & d & a & -> & E & D)].
      * apply in_split in Hd. destruct Hd as (m & a & ->).
        exists [], line, m, d, a; auto.
      * exists (line :: b), e, m, d, a; auto.
    + intros ([|x b] & e & m & d & a & H & E & D); simpl in H;
        inversion H; subst; clear H.
      * left. split; [exact E|]. exists d; split; [|exact D].
        apply in_or_app; right; left; reflexivity.
      * right. exists b, e, m, d, a; auto.
Qed.

End DecoderFacts.

(* ===================================================================== *)
(** ** The event reconciler *)
(* ===================================================================== *)

Section ReconcilerFacts.
Context {V : Validators}.

Lemma evolves_one st st' : settles st st' -> evolves st st'.
Proof. intros H; eapply evolves_step; [exact H | apply evolves_refl]. Qed.

Lemma evolves_trans st st' st'' :
  evolves st st' -> evolves st' st'' -> evolves st st''.
Proof.
  induction 1 as [|a b c Hs _ IH]; intros H; [exact H|].
  eapply evolves_step; [exact Hs | apply IH, H].
Qed.

Lemma not_done_false {A} (f : future A) : done f <> true -> done f = false.
Proof. destruct (done f); congruence. Qed.

Lemma resolve_session_evolves v st : evolves st (resolve_session v st).
Proof.
  unfold resolve_session. destruct (done (session_id_future st)) eqn:E;
    [apply evolves_refl | apply evolves_one; constructor; auto].
Qed.

Lemma fail_session_evolves e st : evolves st (fail_session e st).
Proof.
  unfold fail_session. destruct (done (session_id_future st)) eqn:E;
    [apply evolves_refl | apply evolves_one; constructor; auto].
Qed.

Lemma fail_usage_evolves e st : evolves st (fail_usage e st).
Proof.
  unfold fail_usage. destruct (done (usage_future st)) eqn:E;
    [apply evolves_refl | apply evolves_one; constructor; auto].
Qed.

Lemma fail_text_evolves e st : evolves st (fail_text e st).
Proof.
  unfold fail_text. destruct (done (text_future st)) eqn:E;
    [apply evolves_refl | apply evolves_one; constructor; auto].
Qed.

Lemma resolve_text_evolves st :
  evolves st (resolve_text (accumulated_text st) st).
Proof.
  unfold resolve_text. destruct (done (text_future st)) eqn:E;
    [apply evolves_refl | apply evolves_one; constructor; auto].
Qed.

Lemma reject_unresolved_evolves e st : evolves st (reject_unresolved e st).
Proof.
  unfold reject_unresolved.
  eapply evolves_trans; [apply fail_usage_evolves|].
  eapply evolves_trans; [apply fail_text_evolves|].
  apply fail_session_evolves.
Qed.

(** Behind the guard [if not f.done()], neither call raises. *)
Lemma set_result_pending {A} (f : future A) (v : A) :
  done f = false -> set_result f v = inr (Result v).
Proof. destruct f; simpl; congruence. Qed.

Lemma set_exception_pending {A} (f : future A) (e : exn) :
  done f = false -> set_exception f e = inr (Exception e).
Proof. destruct f; simpl; congruence. Qed.

Lemma set_result_inr {A} (f f' : future A) (v : A) :
  set_result f v = inr f' -> f = Pending /\ f' = Result v.
Proof. destruct f; simpl; intros H; inversion H; auto. Qed.

Lemma set_result_inl {A} (f : future A) (v : A) e :
  set_result f v = inl e -> done f = true /\ e = InvalidStateError.
Proof. destruct f; simpl; intros H; inversion H; auto. Qed.

Lemma on_parse_failure_evolves event_type st :
  match on_parse_failure event_type st with
  | Continue st' => st' = st
  | Yield _ _ => False
  | Raise e st' => st' = reject_unresolved e st
  end.
Proof. unfold on_parse_failure; destruct (is_critical event_type); auto. Qed.

(** One frame: the loop goes on or leaves with settlements only, or it
    yields a chunk that it has appended to the accumulated text. *)
Lemma handle_event_evolves event_type data st :
  match handle_event event_type data st with
  | Continue st' => evolves st st'
  | Yield chunk st' => st' = yield_text chunk st
  | Raise e st' => evolves st st'
  end.
Proof.
  pose proof (on_parse_failure_evolves event_type st) as F.
  assert (P : match on_parse_failure event_type st with
              | Continue st' => evolves st st'
              | Yield chunk st' => st' = yield_text chunk st
              | Raise e st' => evolves st st'
              end).
  { destruct (on_parse_failure event_type st); subst;
      [apply evolves_refl | contradiction | apply reject_unresolved_evolves]. }
  clear F. unfold handle_event.
  destruct (eqb event_type (lit "session")).
  { destruct (SSESessionEvent data);
      [apply resolve_session_evolves | exact P]. }
  destruct (eqb event_type (lit "text")).
  { destruct (SSETextEvent data); [reflexivity | exact P]. }
  destruct (eqb event_type (lit "result")).
  { destruct (SSEResultEvent data) as [[sessionId usage]|]; [|exact P].
    destruct (set_result (usage_future st) usage) as [e|f] eqn:S.
    - apply evolves_refl.
    - apply set_result_inr in S; destruct S as [S ->].
      eapply evolves_step; [|apply resolve_session_evolves].
      constructor; [rewrite S|]; reflexivity. }
  destruct (eqb event_type (lit "error")).
  { destruct (SSEErrorEvent data) as [[error code]|]; [|exact P].
    apply reject_unresolved_evolves. }
  destruct (eqb event_type (lit "done"));
    [apply resolve_text_evolves | apply evolves_refl].
Qed.

Lemma end_of_stream_evolves st :
  evolves (record EndOfStream st) (end_of_stream st).
Proof.
  unfold end_of_stream.
  eapply evolves_trans; [apply fail_session_evolves|].
  eapply evolves_trans; [apply fail_usage_evolves|].
  apply resolve_text_evolves.
Qed.

(** *** What the log keeps *)

Lemma yields_app l l' : yields (l ++ l') = yields l ++ yields l'.
Proof.
  induction l as [|e l IH]; [reflexivity|].
  destruct e; simpl; rewrite IH; reflexivity.
Qed.

Lemma finalizations_app l l' :
  finalizations (l ++ l') = (finalizations l + finalizations l')%nat.
Proof. unfold finalizations; rewrite filter_app, length_app; reflexivity. Qed.

(** A settlement appends one entry that is neither a chunk nor the mark of
    the [finally] block, and leaves the accumulated text alone. *)
Lemma settles_log st st' :
  settles st st' ->
  accumulated_text st' = accumulated_text st
  /\ exists e, log st' = log st ++ [e]
              /\ yields [e] = [] /\ finalizations [e] = 0%nat.
Proof.
  destruct 1; simpl; (split; [reflexivity|]); eexists; repeat split.
Qed.

Lemma evolves_log st st' :
  evolves st st' ->
  accumulated_text st' = accumulated_text st
  /\ yields (log st') = yields (log st)
  /\ finalizations (log st') = finalizations (log st).
Proof.
  induction 1 as [|a b c Hs _ IH]; [auto|].
  destruct (settles_log Hs) as (Ha & e & Hl & Hy & Hf).
  destruct IH as (IHa & IHy & IHf).
  rewrite IHa, IHy, IHf, Ha, Hl, yields_app, finalizations_app, Hy, Hf.
  rewrite app_nil_r, Nat.add_0_r; auto.
Qed.

(** *** Futures are settled once *)

Lemma retains_refl st : retains st st.
Proof. repeat split. Qed.

Lemma retains_trans st st' st'' :
  retains st st' -> retains st' st'' -> retains st st''.
Proof.
  intros (A & B & C) (A' & B' & C'); repeat split; intros H.
  - rewrite <- (A H); apply A'; rewrite (A H); exact H.
  - rewrite <- (B H); apply B'; rewrite (B H); exact H.
  - rewrite <- (C H); apply C'; rewrite (C H); exact H.
Qed.

Lemma settles_retains st st' : settles st st' -> retains st st'.
Proof. destruct 1; repeat split; simpl; congruence. Qed.

Lemma evolves_retains st st' : evolves st st' -> retains st st'.
Proof.
  induction 1 as [|a b c Hs _ IH]; [apply retains_refl|].
  eapply retains_trans; [apply settles_retains, Hs | exact IH].
Qed.

(** *** The text future and the chunks *)

Lemma split_snoc {A} (l pre post : list A) (e x : A) :
  l ++ [e] = pre ++ x :: post ->
  (post = [] /\ l = pre /\ e = x)
  \/ exists post', post = post' ++ [e] /\ l = pre ++ x :: post'.
Proof.
  destruct post as [|y post] using rev_ind; intros H.
  - left. apply app_inj_tail in H. destruct H; auto.
  - right. exists post. clear IHpost.
    change (pre ++ x :: post ++ [y]) with (pre ++ (x :: post) ++ [y]) in H.
    rewrite app_assoc in H. apply app_inj_tail in H.
    destruct H as [-> ->]; auto.
Qed.

(** Appending an entry keeps [text_inv] when the entry agrees with it. *)
Lemma text_inv_snoc st st' e :
  text_inv st ->
  log st' = log st ++ [e] ->
  accumulated_text st' = accumulated_text st ++ List.concat (yields [e]) ->
  (forall v, e = TextSet (Result v) -> v = accumulated_text st) ->
  (forall v, text_future st' = Result v ->
             text_future st = Result v \/ e = TextSet (Result v)) ->
  text_inv st'.
Proof.
  intros (Ha & Hl & Hf) El Ea Ee Ef. repeat split.
  - rewrite Ea, El, yields_app, concat_app, Ha; reflexivity.
  - intros pre v post H. rewrite El in H.
    apply split_snoc in H. destruct H as [(_ & Hp & He)|(post' & _ & H)].
    + rewrite <- Hp, <- Ha; apply Ee, He.
    + eapply Hl; exact H.
  - intros v H. rewrite El. destruct (Ef v H) as [H'| ->].
    + destruct (Hf v H') as (pre & post & ->).
      exists pre, (post ++ [e]). rewrite <- app_assoc; reflexivity.
    + exists (log st), []; reflexivity.
Qed.

Lemma text_inv_initial : text_inv initial.
Proof.
  repeat split; simpl.
  - intros [|? ?] ? ? H; discriminate H.
  - discriminate.
Qed.

Lemma settles_text_inv st st' : settles st st' -> text_inv st -> text_inv st'.
Proof.
  intros H I; destruct H;
    (eapply text_inv_snoc;
     [exact I | reflexivity | simpl; rewrite app_nil_r; reflexivity | | ]);
    simpl; intros v E; try discriminate; auto.
  - inversion E; reflexivity.
  - right; rewrite E; reflexivity.
Qed.

Lemma evolves_text_inv st st' : evolves st st' -> text_inv st -> text_inv st'.
Proof.
  induction 1 as [|a b c Hs _ IH]; [auto|].
  intros I; apply IH, (settles_text_inv Hs I).
Qed.

Lemma yield_text_inv chunk st : text_inv st -> text_inv (yield_text chunk st).
Proof.
  intros I; eapply text_inv_snoc;
    [exact I | reflexivity | simpl; rewrite app_nil_r; reflexivity | | ];
    simpl; intros v E; [discriminate | auto].
Qed.

Lemma end_of_stream_text_inv st : text_inv st -> text_inv (end_of_stream st).
Proof.
  intros I. apply (evolves_text_inv (end_of_stream_evolves st)).
  eapply text_inv_snoc;
    [exact I | reflexivity | simpl; rewrite app_nil_r; reflexivity | | ];
    simpl; intros v E; [discriminate | auto].
Qed.

Lemma end_of_stream_log st :
  accumulated_text (end_of_stream st) = accumulated_text st
  /\ yields (log (end_of_stream st)) = yields (log st)
  /\ finalizations (log (end_of_stream st)) = S (finalizations (log st)).
Proof.
  destruct (evolves_log (end_of_stream_evolves st)) as (Ha & Hy & Hf).
  rewrite Ha, Hy, Hf; simpl.
  rewrite yields_app, finalizations_app; simpl.
  rewrite app_nil_r, Nat.add_1_r; auto.
Qed.

(** *** The generator *)

(** One resumption of the body: it suspends at the [yield] of a later
    frame, or it finishes through the [finally] block. *)
Lemma resume_spec frames st :
  match fst (resume frames st) with
  | Item chunk =>
      status (snd (resume frames st)) = Suspended
      /\ (List.length (upstream (snd (resume frames st)))
          < List.length frames)%nat
      /\ exists st', evolves st st'
                     /\ vars (snd (resume frames st)) = yield_text chunk st'
  | _ =>
      status (snd (resume frames st)) = Finished
      /\ exists st', evolves st st'
                     /\ vars (snd (resume frames st)) = end_of_stream st'
  end.
Proof.
  revert st; induction frames as [|[event_type data] rest IH]; intros st.
  - simpl. split; [reflexivity|]. exists st; split; [constructor | reflexivity].
  - cbn [resume].
    pose proof (handle_event_evolves event_type data st) as H.
    destruct (handle_event event_type data st) as [st'|chunk st'|e st'].
    + specialize (IH st'). destruct (fst (resume rest st'));
        [destruct IH as (S & L & st'' & E & Hv)
        |destruct IH as (S & st'' & E & Hv) ..].
      * split; [exact S|]. split; [simpl; lia|].
        exists st''; split; [eapply evolves_trans; eauto | exact Hv].
      * split; [exact S|].
        exists st''; split; [eapply evolves_trans; eauto | exact Hv].
      * split; [exact S|].
        exists st''; split; [eapply evolves_trans; eauto | exact Hv].
    + simpl. split; [reflexivity|]. split; [lia|].
      exists st; split; [constructor | exact H].
    + simpl. split; [reflexivity|]. exists st'; split; [exact H | reflexivity].
Qed.

Lemma yield_text_log chunk st :
  yields (log (yield_text chunk st)) = yields (log st) ++ [chunk]
  /\ finalizations (log (yield_text chunk st)) = finalizations (log st).
Proof.
  simpl. rewrite yields_app, finalizations_app; simpl.
  rewrite Nat.add_0_r; auto.
Qed.

Lemma resume_text_inv frames st :
  text_inv st -> text_inv (vars (snd (resume frames st))).
Proof.
  intros I. pose proof (resume_spec frames st) as H.
  destruct (fst (resume frames st));
    [destruct H as (_ & _ & st' & E & ->) | destruct H as (_ & st' & E & ->) ..].
  - apply yield_text_inv, (evolves_text_inv E I).
  - apply end_of_stream_text_inv, (evolves_text_inv E I).
  - apply end_of_stream_text_inv, (evolves_text_inv E I).
Qed.

Lemma resume_yields frames st :
  yields (log (vars (snd (resume frames st)))) =
  yields (log st) ++ chunks [fst (resume frames st)].
Proof.
  pose proof (resume_spec frames st) as H.
  destruct (fst (resume frames st));
    [destruct H as (_ & _ & st' & E & ->) | destruct H as (_ & st' & E & ->) ..];
    destruct (evolves_log E) as (_ & Hy & _).
  - destruct (yield_text_log chunk st') as [-> _]. rewrite Hy; reflexivity.
  - destruct (end_of_stream_log st') as (_ & -> & _).
    rewrite Hy, app_nil_r; reflexivity.
  - destruct (end_of_stream_log st') as (_ & -> & _).
    rewrite Hy, app_nil_r; reflexivity.
Qed.


Lemma yield_text_retains chunk st : retains st (yield_text chunk st).
Proof. repeat split. Qed.

Lemma end_of_stream_retains st : retains st (end_of_stream st).
Proof.
  eapply retains_trans; [|apply evolves_retains, end_of_stream_evolves].
  repeat split.
Qed.

Lemma resume_retains frames st : retains st (vars (snd (resume frames st))).
Proof.
  pose proof (resume_spec frames st) as H.
  destruct (fst (resume frames st));
    [destruct H as (_ & _ & st' & E & ->) | destruct H as (_ & st' & E & ->) ..];
    (eapply retains_trans; [apply evolves_retains, E|]);
    auto using yield_text_retains, end_of_stream_retains.
Qed.

(** Whatever the consumer does next, a future that is done keeps its
    outcome. *)
Lemma step_retains g o : retains (vars g) (vars (step g o)).
Proof.
  destruct o; unfold step, anext, aclose; destruct (status g); simpl;
    auto using retains_refl, resume_retains, end_of_stream_retains.
Qed.

Lemma step_text_inv g o : text_inv (vars g) -> text_inv (vars (step g o)).
Proof.
  intros I. destruct o; unfold step, anext, aclose; destruct (status g);
    simpl; auto using resume_text_inv, end_of_stream_text_inv.
Qed.

Lemma run_text_inv ops g : text_inv (vars g) -> text_inv (vars (run ops g)).
Proof.
  revert g; induction ops as [|o ops IH]; intros g I; [exact I|].
  apply IH, step_text_inv, I.
Qed.

(** The chunks in the log are the chunks the consumer received. *)
Lemma run_yields ops g :
  yields (log (vars (run ops g))) =
  yields (log (vars g)) ++ chunks (received ops g).
Proof.
  revert g; induction ops as [|o ops IH]; intros g.
  - simpl. rewrite app_nil_r; reflexivity.
  - destruct o; cbn [run fold_left received step].
    + fold (run ops (snd (anext g))). rewrite IH.
      assert (H : yields (log (vars (snd (anext g)))) =
                  yields (log (vars g)) ++ chunks [fst (anext g)]).
      { unfold anext; destruct (status g); simpl;
          rewrite ?app_nil_r; auto using resume_yields. }
      rewrite H, <- app_assoc. f_equal.
      destruct (fst (anext g)); reflexivity.
    + fold (run ops (aclose g)). rewrite IH. f_equal.
      unfold aclose; destruct (status g); simpl; try reflexivity.
      destruct (end_of_stream_log (vars g)) as (_ & -> & _); reflexivity.
Qed.




(** Pulling often enough exhausts the generator. *)
Lemma pulls_finish n g :
  (List.length (upstream g) < n)%nat ->
  status (run (repeat Pull n) g) = Finished.
Proof.
  revert g; induction n as [|n IH]; intros g L; [lia|].
  cbn [repeat run fold_left step]. fold (run (repeat Pull n) (snd (anext g))).
  assert (K : forall k h, status h = Finished ->
                          status (run (repeat Pull k) h) = Finished).
  { induction k as [|k IHk]; intros h Hh; [exact Hh|].
    cbn [repeat run fold_left step]. apply IHk.
    unfold anext; rewrite Hh; exact Hh. }
  unfold anext. destruct (status g) eqn:S; try (apply K; exact S);
    pose proof (resume_spec (upstream g) (vars g)) as H;
    destruct (fst (resume (upstream g) (vars g)));
    try (destruct H as (Hs & _); apply K; exact Hs);
    destruct H as (_ & Hl & _); apply IH; lia.
Qed.

(** *** What rejection and the [finally] block do to the futures *)

Lemma reject_unresolved_futures e st :
  session_id_future (reject_unresolved e st)
  = settled (session_id_future st) (Exception e)
  /\ usage_future (reject_unresolved e st)
     = settled (usage_future st) (Exception e)
  /\ text_future (reject_unresolved e st)
     = settled (text_future st) (Exception e).
Proof.
  destruct st as [s u t a l].
  unfold reject_unresolved, fail_session, fail_text, fail_usage, settled.
  destruct s, u, t; repeat split.
Qed.

Lemma end_of_stream_futures st :
  session_id_future (end_of_stream st)
  = settled (session_id_future st) (Exception NO_SESSION)
  /\ usage_future (end_of_stream st)
     = settled (usage_future st) (Exception NO_USAGE)
  /\ text_future (end_of_stream st)
     = settled (text_future st) (Result (accumulated_text st)).
Proof.
  destruct st as [s u t a l].
  unfold end_of_stream, fail_session, fail_usage, resolve_text, settled.
  destruct s, u, t; repeat split.
Qed.


Lemma settled_settled {A} (f o o' : future A) :
  done o = true -> settled (settled f o) o' = settled f o.
Proof. unfold settled; destruct f; simpl; auto; intros ->; reflexivity. Qed.

End ReconcilerFacts.

(* ===================================================================== *)
(** ** Segments and frames *)
(* ===================================================================== *)

(** C7, as amended: the frames of a stream are what its segments contribute,
    segment after segment; a segment contributes at most one frame, and when
    it does, some line of it starts with the event-type prefix and gives the
    event type, and some other line starts with the data prefix and gives
    the data, in whichever order the two lines come; a segment without a
    line of either kind contributes nothing, and nothing is ever raised. *)
Theorem frames_from_segments :
  (forall chunks,
      parse_sse_stream chunks = flat_map emit (segments (List.concat chunks)))
  /\ (forall segment, (List.length (emit segment) <= 1)%nat)
  /\ (forall segment event_type data,
         In (event_type, data) (emit segment) ->
         event_type <> [] /\ data <> []
         /\ (exists line, In line (split LF segment)
                          /\ startswith EVENT_PREFIX line = true
                          /\ event_type = skipn 7 line)
         /\ (exists line, In line (split LF segment)
                          /\ startswith EVENT_PREFIX line = false
                          /\ startswith DATA_PREFIX line = true
                          /\ data = skipn 6 line))
  /\ (forall segment,
         (forall line, In line (split LF segment) ->
                       startswith EVENT_PREFIX line = false)
         \/ (forall line, In line (split LF segment) ->
                          startswith DATA_PREFIX line = false) ->
         emit segment = []).
Proof.
  assert (L : forall segment event_type data,
             In (event_type, data) (emit segment) ->
             In (event_type, data) (parse_event segment)).
  { intros segment event_type data. unfold emit.
    destruct (truthy (strip segment)); [auto | intros []]. }
  split; [|split; [|split]].
  - intros chunks. rewrite parse_sse_stream_concat.
    rewrite <- drain_flush_segments.
    destruct (drain (List.concat chunks)); reflexivity.
  - intros segment. unfold emit. destruct (truthy (strip segment));
      [apply parse_event_at_most_one | simpl; lia].
  - intros segment event_type data H.
    apply L, parse_event_lines in H. tauto.
  - intros segment H. destruct (emit segment) as [|[event_type data] fs] eqn:E;
      [reflexivity | exfalso].
    assert (I : In (event_type, data) (emit segment))
      by (rewrite E; left; reflexivity).
    apply L, parse_event_lines in I.
    destruct I as (_ & _ & _ & (l1 & In1 & P1 & _) & (l2 & In2 & _ & P2 & _)).
    destruct H as [H|H]; [specialize (H l1 In1) | specialize (H l2 In2)];
      congruence.
Qed.

(** The frame of the sample segment comes from its two lines. *)
Lemma frames_from_segments_witness :
  In (lit "done", lit "{}") (emit Sample.data_first_segment)
  /\ exists line, In line (split LF Sample.data_first_segment)
                  /\ startswith EVENT_PREFIX line = true
                  /\ lit "done" = skipn 7 line.
Proof.
  assert (H : In (lit "done", lit "{}") (emit Sample.data_first_segment))
    by (vm_compute; left; reflexivity).
  split; [exact H|].
  destruct frames_from_segments as (_ & _ & F & _).
  destruct (F _ _ _ H) as (_ & _ & E & _). exact E.
Defined.

(** C7, as stated, fails: a segment whose data line precedes its event line
    has no event line followed by a data line, and yet yields a frame. *)
Lemma data_line_before_event_line :
  event_then_data (split LF Sample.data_first_segment) = false
  /\ parse_sse_stream [Sample.data_first_segment; SEP]
     = [(lit "done", lit "{}")].
Proof. split; vm_compute; reflexivity. Qed.

(* ===================================================================== *)
(** ** The reconciler's guarantees *)
(* ===================================================================== *)

(** C1: whatever the frames and whatever the consumer does, the chunks in
    the log are the chunks the consumer received, every resolution of the
    text future carries the concatenation, in order, of the chunks yielded
    before it, and a resolved text future holds such a value. *)
Theorem full_text_is_concatenation {V : Validators}
        (frames : list frame) (ops : list op) :
  let st := vars (run ops (create frames)) in
  yields (log st) = chunks (received ops (create frames))
  /\ (forall pre v post,
         log st = pre ++ TextSet (Result v) :: post ->
         v = List.concat (yields pre))
  /\ (forall v,
         text_future st = Result v ->
         exists pre post,
           log st = pre ++ TextSet (Result v) :: post
           /\ v = List.concat (yields pre)).
Proof.
  intros st.
  assert (I : text_inv st) by (apply run_text_inv, text_inv_initial).
  destruct I as (_ & Hl & Hf).
  split; [|split].
  - unfold st. rewrite run_yields. reflexivity.
  - exact Hl.
  - intros v H. destruct (Hf v H) as (pre & post & E).
    exists pre, post; split; [exact E | eapply Hl, E].
Qed.

(** On the basic stream, consumed to its end, the full text is the two
    chunks joined. *)
Lemma full_text_is_concatenation_witness :
  exists pre post,
    log (vars (run (V := Sample.validators) [Pull; Pull; Pull]
                   (create Sample.basic_frames)))
    = pre ++ TextSet (Result (lit "Hello, world!")) :: post
    /\ lit "Hello, world!" = List.concat (yields pre).
Proof.
  apply (proj2 (proj2 (full_text_is_concatenation
                         (V := Sample.validators)
                         Sample.basic_frames [Pull; Pull; Pull]))).
  vm_compute. reflexivity.
Defined.

(** C2 fails on the code: the [result] branch sets the usage future without
    asking whether it is done, so a second [result] event makes the pull
    raise [InvalidStateError]; the usage of the first event is retained. *)
Theorem duplicate_result_raises :
  let r := anext (V := Sample.validators)
                 (create Sample.duplicate_result_frames) in
  fst r = Raised InvalidStateError
  /\ usage_future (vars (snd r)) = Result Sample.usage_5_3_8.
Proof. split; vm_compute; reflexivity. Qed.



(** C5, as amended: on an [error] event with a valid payload the pull
    raises an error with the payload's message and, as code, the payload's
    code when it has a non-empty one and STREAM_ERROR otherwise; the
    generator is finished and every future that was pending has failed with
    that same error, the others keeping their outcome. *)
Theorem error_event_rejects {V : Validators}
        (data error : str) (code : option str)
        (rest : list frame) (st : state) (s : gen_status) :
  SSEErrorEvent data = Some (error, code) ->
  s <> Finished ->
  let e := Koine (mkKoineError
                    error
                    (match code with
                     | Some (c :: cs) => c :: cs
                     | _ => lit "STREAM_ERROR"
                     end) None) in
  let r := anext (mkGen s ((lit "error", data) :: rest) st) in
  fst r = Raised e
  /\ status (snd r) = Finished
  /\ session_id_future (vars (snd r))
     = settled (session_id_future st) (Exception e)
  /\ usage_future (vars (snd r)) = settled (usage_future st) (Exception e)
  /\ text_future (vars (snd r)) = settled (text_future st) (Exception e).
Proof.
  intros P S e r.
  assert (R : r = (Raised e,
                   mkGen Finished rest
                         (end_of_stream (reject_unresolved e st)))).
  { unfold r, anext. cbn [status upstream vars].
    assert (X : resume ((lit "error", data) :: rest) st
                = (Raised e,
                   mkGen Finished rest
                         (end_of_stream (reject_unresolved e st)))).
    { cbn [resume]. unfold handle_event.
      change (eqb (lit "error") (lit "session")) with false.
      change (eqb (lit "error") (lit "text")) with false.
      change (eqb (lit "error") (lit "result")) with false.
      change (eqb (lit "error") (lit "error")) with true.
      cbv iota. rewrite P.
      assert (C : stream_error error code = e).
      { unfold stream_error, e, or_else. destruct code as [[|c cs]|];
          reflexivity. }
      rewrite C. reflexivity. }
    destruct s; [exact X | exact X | congruence]. }
  rewrite R; cbn [fst snd status vars].
  destruct (end_of_stream_futures (reject_unresolved e st)) as (Hs & Hu & Ht).
  destruct (reject_unresolved_futures e st) as (Rs & Ru & Rt).
  rewrite Hs, Hu, Ht, Rs, Ru, Rt.
  rewrite !settled_settled by reflexivity. auto.
Qed.

(** The rate-limit error of the test-suite, after a session and a chunk. *)
Lemma error_event_rejects_witness :
  let st := yield_text (lit "Partial")
                       (with_session (Result (lit "error-session")) initial) in
  let r := anext (V := Sample.validators)
                 (mkGen Suspended
                        [(lit "error", Sample.rate_limit_payload)] st) in
  fst r = Raised (Koine (mkKoineError (lit "Rate limit exceeded")
                                      (lit "RATE_LIMIT") None))
  /\ usage_future (vars (snd r))
     = Exception (Koine (mkKoineError (lit "Rate limit exceeded")
                                      (lit "RATE_LIMIT") None))
  /\ session_id_future (vars (snd r)) = Result (lit "error-session").
Proof.
  intros st r.
  destruct (@error_event_rejects
              Sample.validators Sample.rate_limit_payload
              (lit "Rate limit exceeded") (Some (lit "RATE_LIMIT"))
              [] st Suspended)
    as (H1 & _ & H3 & H4 & _);
    [vm_compute; reflexivity | discriminate |].
  split; [exact H1 | split; [exact H4 | exact H3]].
Defined.

(** C5, as stated, fails: a payload that supplies the empty code does not
    give an error with that code; the code is STREAM_ERROR. *)
Lemma empty_code_is_replaced :
  SSEErrorEvent (Validators := Sample.validators) Sample.empty_code_payload
  = Some (lit "boom", Some [])
  /\ fst (anext (V := Sample.validators)
                (create [(lit "error", Sample.empty_code_payload)]))
     = Raised (Koine (mkKoineError (lit "boom") (lit "STREAM_ERROR") None))
  /\ fst (anext (V := Sample.validators)
                (create [(lit "error", Sample.empty_code_payload)]))
     <> Raised (error_with_payload_code (lit "boom") (Some [])).
Proof.
  split; [vm_compute; reflexivity|].
  split; [vm_compute; reflexivity|].
  vm_compute. discriminate.
Qed.

Lemma eqb_neq (a b : str) : a <> b -> eqb a b = false.
Proof.
  intros H. destruct (eqb a b) eqn:E; [|reflexivity].
  apply eqb_eq in E. contradiction.
Qed.





(* ===================================================================== *)
(** ** The stream session *)
(* ===================================================================== *)

Lemma not_2xx_not_success (rp : reply) :
  ~ (200 <= reply_status rp <= 299)%N ->
  is_success (response (send rp)) = false.
Proof.
  intros H. unfold is_success, send; simpl.
  apply andb_false_iff.
  destruct (N.leb_spec 200 (reply_status rp));
    destruct (N.leb_spec (reply_status rp) 299); auto; lia.
Qed.

(** The failure path of [stream_text], step by step. *)
Lemma stream_text_failure {V : Validators} (rp : reply) :
  ~ (200 <= reply_status rp <= 299)%N ->
  stream_text rp =
  (client_aclose (aread (send rp)),
   inl (Koine
          match GatewayErrorResponse (List.concat (reply_body rp)) with
          | Some (error, code, rawText) => mkKoineError error code rawText
          | None =>
              mkKoineError
                (lit "HTTP " ++ of_N (reply_status rp) ++ lit " "
                     ++ reply_reason rp)
                (lit "HTTP_ERROR") None
          end)).
Proof.
  intros H. unfold stream_text. rewrite (not_2xx_not_success rp H).
  cbn [negb]. f_equal. unfold parse_error_response; simpl.
  destruct (GatewayErrorResponse (List.concat (reply_body rp)))
    as [[[error code] rawText]|]; reflexivity.
Qed.















(* ===================================================================== *)
(** ** Further properties of the frame decoder *)
(* ===================================================================== *)

Lemma parse_sse_stream_segments (chunks : list str) :
  parse_sse_stream chunks = flat_map emit (segments (List.concat chunks)).
Proof.
  rewrite parse_sse_stream_concat, <- drain_flush_segments.
  destruct (drain (List.concat chunks)); reflexivity.
Qed.

Lemma split_not_nil (c : char) (s : str) : split c s <> [].
Proof.
  induction s as [|x s IH]; simpl; [discriminate|].
  destruct (N.eqb x c); [discriminate|].
  destruct (split c s); [contradiction | discriminate].
Qed.

Lemma split_one_line (a : str) : Result.one_line a -> split LF a = [a].
Proof.
  induction 1 as [|x a Hx _ IH]; simpl; [reflexivity|].
  apply N.eqb_neq in Hx. rewrite Hx, IH. reflexivity.
Qed.

Lemma split_first_line (a b : str) :
  Result.one_line a -> split LF (a ++ LF :: b) = a :: split LF b.
Proof.
  induction 1 as [|x a Hx _ IH]; simpl; [reflexivity|].
  apply N.eqb_neq in Hx. rewrite Hx, IH. reflexivity.
Qed.

Lemma split_last_line (s line : str) :
  Result.one_line line -> split LF (s ++ LF :: line) = split LF s ++ [line].
Proof.
  intros H. induction s as [|x s IH]; simpl.
  - rewrite split_one_line by exact H. reflexivity.
  - destruct (N.eqb x LF); rewrite IH; [reflexivity|].
    pose proof (split_not_nil LF s) as N.
    destruct (split LF s); [contradiction | reflexivity].
Qed.

(** The lines [split] gives hold no newline. *)
Lemma split_lines_one_line (s : str) : Forall Result.one_line (split LF s).
Proof.
  induction s as [|x s IH]; simpl.
  - repeat constructor.
  - destruct (N.eqb x LF) eqn:E.
    + constructor; [constructor | exact IH].
    + apply N.eqb_neq in E. destruct (split LF s) as [|l ls].
      * repeat constructor. exact E.
      * inversion IH; subst. constructor; [constructor; assumption | assumption].
Qed.

Lemma one_line_skipn (n : nat) (s : str) :
  Result.one_line s -> Result.one_line (skipn n s).
Proof.
  intros H. revert n. induction H as [|c s Hc _ IH]; intros [|n]; simpl;
    try constructor; auto.
  apply (IH 0%nat).
Qed.

(** X1: every frame the decoder yields, whatever the chunks, has an event
    type and a data text that are not empty and hold no newline. *)
Theorem frames_are_single_lines (chunks : list str) (f : frame) :
  In f (parse_sse_stream chunks) -> Result.well_formed f.
Proof.
  rewrite parse_sse_stream_segments, in_flat_map.
  intros (segment & _ & H). destruct f as [event_type data].
  assert (P : In (event_type, data) (parse_event segment)).
  { revert H. unfold emit. destruct (truthy (strip segment)); [auto | intros []]. }
  apply parse_event_lines in P.
  destruct P as (_ & Ne & Nd & (l1 & I1 & _ & E1) & (l2 & I2 & _ & _ & E2)).
  pose proof (split_lines_one_line segment) as L.
  rewrite Forall_forall in L.
  repeat split; simpl; auto; subst; apply one_line_skipn, L; assumption.
Qed.

Lemma frames_are_single_lines_witness :
  Result.well_formed (lit "text", lit "payload").
Proof.
  apply (frames_are_single_lines Fixtures.two_chunks).
  vm_compute. left. reflexivity.
Defined.

(** *** Decoding what the test-suite's encoder writes *)

Lemma split1_cons (sep : str) (x : char) (t : str) :
  split1 sep (x :: t) =
  if startswith sep (x :: t)
  then Some ([], skipn (List.length sep) (x :: t))
  else match split1 sep t with
       | Some (a, b) => Some (x :: a, b)
       | None => None
       end.
Proof. reflexivity. Qed.

Lemma startswith_SEP_other (x : char) (t : str) :
  x <> LF -> startswith SEP (x :: t) = false.
Proof.
  intros H. apply not_eq_sym, N.eqb_neq in H.
  unfold SEP. cbn [startswith]. rewrite H. reflexivity.
Qed.

Lemma split1_one_line (a : str) : Result.one_line a -> split1 SEP a = None.
Proof.
  induction 1 as [|x a Hx _ IH]; [reflexivity|].
  rewrite split1_cons, startswith_SEP_other, IH by exact Hx. reflexivity.
Qed.

Lemma split1_at_blank_line (a b : str) :
  Result.one_line a -> split1 SEP (a ++ LF :: LF :: b) = Some (a, b).
Proof.
  induction 1 as [|x a Hx _ IH]; [reflexivity|].
  cbn [app]. rewrite split1_cons, startswith_SEP_other, IH by exact Hx.
  reflexivity.
Qed.

Lemma split1_past_line (a b : str) :
  Result.one_line a -> startswith [LF] b = false ->
  split1 SEP (a ++ LF :: b) =
  match split1 SEP b with
  | Some (u, v) => Some (a ++ LF :: u, v)
  | None => None
  end.
Proof.
  intros H B. induction H as [|x a Hx _ IH].
  - cbn [app]. rewrite split1_cons.
    assert (F : startswith SEP (LF :: b) = false).
    { unfold SEP. cbn [startswith]. rewrite N.eqb_refl. exact B. }
    rewrite F. reflexivity.
  - cbn [app]. rewrite split1_cons, startswith_SEP_other, IH by exact Hx.
    destruct (split1 SEP b) as [[u v]|]; reflexivity.
Qed.

Lemma one_line_app (a b : str) :
  Result.one_line a -> Result.one_line b -> Result.one_line (a ++ b).
Proof. apply Forall_app_2 || (intros; apply Forall_app; auto). Qed.

Lemma one_line_EVENT_PREFIX : Result.one_line EVENT_PREFIX.
Proof. repeat constructor; discriminate. Qed.

Lemma one_line_DATA_PREFIX : Result.one_line DATA_PREFIX.
Proof. repeat constructor; discriminate. Qed.

Lemma startswith_self (p s : str) : startswith p (p ++ s) = true.
Proof.
  induction p as [|x p IH]; simpl; [reflexivity|].
  rewrite N.eqb_refl, IH. reflexivity.
Qed.

Lemma lstrip_keeps_last (s : str) (c : char) :
  isspace c = false -> lstrip (s ++ [c]) <> [].
Proof.
  intros H. induction s as [|x s IH]; simpl.
  - rewrite H. discriminate.
  - destruct (isspace x); [exact IH | discriminate].
Qed.

(** A text that starts with a character that is not white space is not
    blank. *)
Lemma strip_truthy (c : char) (s : str) :
  isspace c = false -> truthy (strip (c :: s)) = true.
Proof.
  intros H. unfold strip, rstrip. cbn [lstrip]. rewrite H.
  cbn [rev]. pose proof (@lstrip_keeps_last (rev s) c H) as N.
  destruct (lstrip (rev s ++ [c])) as [|y l] eqn:E; [contradiction|].
  cbn [rev]. destruct (rev l ++ [y]) eqn:R; [|reflexivity].
  destruct (rev l); discriminate R.
Qed.

(** The two lines of a frame, followed or not by an empty line, give the
    frame back. *)
Lemma emit_event (event_type data tail : str) :
  Result.well_formed (event_type, data) ->
  tail = [] \/ tail = [LF] ->
  emit (lit "event: " ++ event_type ++ LF :: lit "data: " ++ data ++ tail)
  = [(event_type, data)].
Proof.
  intros (Ne & Nd & Le & Ld) T. cbn [fst snd] in *.
  unfold emit.
  change (lit "event: " ++ event_type ++ LF :: lit "data: " ++ data ++ tail)
    with (101%N :: (skipn 1 (lit "event: ") ++ event_type
                    ++ LF :: lit "data: " ++ data ++ tail)).
  rewrite strip_truthy by reflexivity.
  change (101%N :: (skipn 1 (lit "event: ") ++ event_type
                    ++ LF :: lit "data: " ++ data ++ tail))
    with ((EVENT_PREFIX ++ event_type)
            ++ LF :: (DATA_PREFIX ++ data) ++ tail).
  unfold parse_event, scan_lines.
  rewrite split_first_line
    by (apply one_line_app; [apply one_line_EVENT_PREFIX | exact Le]).
  assert (L : Result.one_line (DATA_PREFIX ++ data))
    by (apply one_line_app; [apply one_line_DATA_PREFIX | exact Ld]).
  assert (A : scan_line ([], []) (EVENT_PREFIX ++ event_type)
              = (event_type, [])).
  { unfold scan_line. rewrite startswith_self.
    change 7%nat with (List.length EVENT_PREFIX).
    rewrite skipn_app, skipn_all, Nat.sub_diag. reflexivity. }
  assert (B : scan_line (event_type, []) (DATA_PREFIX ++ data)
              = (event_type, data)).
  { unfold scan_line.
    change (startswith EVENT_PREFIX (DATA_PREFIX ++ data)) with false.
    cbv iota. rewrite startswith_self.
    change 6%nat with (List.length DATA_PREFIX).
    rewrite skipn_app, skipn_all, Nat.sub_diag. reflexivity. }
  assert (R : fold_left scan_line
                        (split LF ((DATA_PREFIX ++ data) ++ tail))
                        (event_type, []) = (event_type, data)).
  { destruct T as [-> | ->].
    - rewrite app_nil_r, split_one_line by exact L.
      cbn [fold_left]. exact B.
    - rewrite split_first_line by exact L.
      cbn [fold_left split]. rewrite B. reflexivity. }
  cbn [fold_left]. rewrite A, R.
  destruct event_type; [contradiction|]. destruct data; [contradiction|].
  reflexivity.
Qed.

Lemma sse_response_cons (event_type data : str) (events : list frame) :
  Result.sse_response ((event_type, data) :: events) =
  (EVENT_PREFIX ++ event_type)
    ++ LF :: (DATA_PREFIX ++ data)
    ++ LF :: match events with
             | [] => []
             | _ => LF :: Result.sse_response events
             end.
Proof.
  unfold Result.sse_response. cbn [flat_map app].
  destruct events as [|[t d] events]; [reflexivity|].
  cbn [flat_map app Result.join_lines]. reflexivity.
Qed.

Lemma segments_sse_response (events : list frame) :
  Forall Result.well_formed events ->
  flat_map emit (segments (Result.sse_response events)) = events.
Proof.
  induction 1 as [|[event_type data] events W _ IH]; [reflexivity|].
  pose proof W as (Ne & Nd & Le & Ld). cbn [fst snd] in *.
  assert (LE : Result.one_line (EVENT_PREFIX ++ event_type))
    by (apply one_line_app; [apply one_line_EVENT_PREFIX | exact Le]).
  assert (LD : Result.one_line (DATA_PREFIX ++ data))
    by (apply one_line_app; [apply one_line_DATA_PREFIX | exact Ld]).
  rewrite sse_response_cons, segments_unfold.
  rewrite split1_past_line; [|exact LE|reflexivity].
  destruct events as [|f events].
  - rewrite split1_past_line; [|exact LD|reflexivity].
    cbn [split1 SEP startswith flat_map]. rewrite app_nil_r.
    apply (emit_event (tail := [LF]) W). right; reflexivity.
  - rewrite split1_at_blank_line by exact LD.
    cbn [flat_map]. rewrite IH.
    pose proof (emit_event (tail := []) W (or_introl eq_refl)) as E.
    rewrite app_nil_r in E. unfold EVENT_PREFIX, DATA_PREFIX.
    rewrite <- app_assoc. rewrite E. reflexivity.
Qed.

(** X2: the decoder gives back the events the test-suite's encoder wrote,
    however the encoded text is cut into chunks, as long as the event types
    and the serialized payloads are not empty and hold no newline. *)
Theorem decode_sse_response (events : list frame) (chunks : list str) :
  Forall Result.well_formed events ->
  List.concat chunks = Result.sse_response events ->
  parse_sse_stream chunks = events.
Proof.
  intros W C. rewrite parse_sse_stream_segments, C.
  apply segments_sse_response, W.
Qed.

Lemma decode_sse_response_witness :
  parse_sse_stream
    [firstn 20 (Result.sse_response Fixtures.two_events);
     skipn 20 (Result.sse_response Fixtures.two_events)]
  = Fixtures.two_events.
Proof.
  apply decode_sse_response.
  - repeat constructor; cbn [fst snd]; try discriminate;
      vm_compute; repeat constructor; discriminate.
  - cbn [List.concat]. rewrite app_nil_r. apply firstn_skipn.
Defined.

(** *** Repeated lines, blank input, and frames as they arrive *)

Lemma scan_lines_last_line (segment line : str) :
  Result.one_line line ->
  scan_lines (segment ++ LF :: line) = scan_line (scan_lines segment) line.
Proof.
  intros H. unfold scan_lines.
  rewrite split_last_line by exact H.
  rewrite fold_left_app. reflexivity.
Qed.

(** X3: when a segment has several data lines, or several event lines, the
    last one alone counts: a data line appended to a segment replaces the
    data and keeps the event type, an event line appended to it replaces
    the event type and keeps the data. *)
Theorem last_line_wins (segment value : str) :
  Result.one_line value -> value <> [] ->
  parse_event (segment ++ LF :: DATA_PREFIX ++ value)
  = match fst (scan_lines segment) with
    | [] => []
    | event_type => [(event_type, value)]
    end
  /\ parse_event (segment ++ LF :: EVENT_PREFIX ++ value)
     = match snd (scan_lines segment) with
       | [] => []
       | data => [(value, data)]
       end.
Proof.
  intros L N. unfold parse_event.
  rewrite !scan_lines_last_line
    by (apply one_line_app;
        [apply one_line_DATA_PREFIX || apply one_line_EVENT_PREFIX | exact L]).
  destruct (scan_lines segment) as [e d]. unfold scan_line. cbn [fst snd].
  change (startswith EVENT_PREFIX (DATA_PREFIX ++ value)) with false.
  cbv iota. rewrite !startswith_self.
  change 6%nat with (List.length DATA_PREFIX).
  change 7%nat with (List.length EVENT_PREFIX).
  rewrite !skipn_app, !skipn_all, !Nat.sub_diag. cbn [skipn app].
  destruct value; [contradiction|].
  split; [destruct e | destruct d]; reflexivity.
Qed.

Lemma last_line_wins_witness :
  parse_event (lit "event: text" ++ LF :: lit "data: first"
                   ++ LF :: DATA_PREFIX ++ lit "second")
  = [(lit "text", lit "second")].
Proof.
  pose proof (@last_line_wins
                (lit "event: text" ++ LF :: lit "data: first")
                (lit "second")) as H.
  destruct H as [H _].
  - repeat constructor; discriminate.
  - discriminate.
  - rewrite <- app_assoc in H. exact H.
Defined.

Lemma lstrip_blank (s : str) : Result.blank s -> lstrip s = [].
Proof.
  induction 1 as [|c s Hc _ IH]; simpl; [reflexivity|].
  rewrite Hc. exact IH.
Qed.

Lemma emit_blank (s : str) : Result.blank s -> emit s = [].
Proof.
  intros H. unfold emit, strip. rewrite lstrip_blank by exact H. reflexivity.
Qed.

Lemma segments_blank (text : str) :
  Result.blank text -> Forall Result.blank (segments text).
Proof.
  remember (List.length text) as n eqn:Hn.
  revert text Hn; induction n as [n IH] using lt_wf_ind; intros text Hn B.
  rewrite segments_unfold.
  destruct (split1 SEP text) as [[segment rest]|] eqn:E.
  - pose proof (split1_SEP_shorter _ E) as L.
    apply split1_decompose in E. subst text.
    unfold Result.blank in B. rewrite !Forall_app in B.
    destruct B as (B1 & _ & B2).
    constructor; [exact B1|].
    apply (IH (List.length rest)); auto. lia.
  - repeat constructor. exact B.
Qed.

(** X4: a stream made of white space only, blank lines included, yields no
    frame, however it is cut into chunks. *)
Theorem blank_stream_yields_nothing (chunks : list str) :
  Forall Result.blank chunks -> parse_sse_stream chunks = [].
Proof.
  intros B. rewrite parse_sse_stream_segments.
  assert (C : Result.blank (List.concat chunks)).
  { induction B as [|c cs Hc _ IH]; simpl; [constructor|].
    apply Forall_app; auto. }
  apply segments_blank in C.
  induction C as [|s l Hs _ IH]; simpl; [reflexivity|].
  rewrite emit_blank, IH by exact Hs. reflexivity.
Qed.

Lemma blank_stream_yields_nothing_witness :
  parse_sse_stream [[LF; LF]; lit "  "; [LF; 13%N; LF; LF; LF]] = [].
Proof.
  apply blank_stream_yields_nothing.
  repeat constructor.
Defined.

Lemma feed_all_app (buffer : str) (before after : list str) :
  feed_all buffer (before ++ after) =
  let '(frames, buffer') := feed_all buffer before in
  let '(frames', buffer'') := feed_all buffer' after in
  (frames ++ frames', buffer'').
Proof.
  revert buffer; induction before as [|chunk before IH]; intros buffer.
  - simpl. destruct (feed_all buffer after); reflexivity.
  - cbn [app feed_all]. destruct (drain (buffer ++ chunk)) as [f b].
    rewrite IH. destruct (feed_all b before) as [f' b'].
    destruct (feed_all b' after) as [f'' b''].
    rewrite app_assoc. reflexivity.
Qed.

Lemma feed_all_residual (buffer : str) (chunks : list str) :
  split1 SEP buffer = None -> split1 SEP (snd (feed_all buffer chunks)) = None.
Proof.
  revert buffer; induction chunks as [|chunk chunks IH]; intros buffer H.
  - exact H.
  - cbn [feed_all]. pose proof (drain_residual (buffer ++ chunk)) as R.
    destruct (drain (buffer ++ chunk)) as [f b]. cbn [snd] in R.
    specialize (IH b R). destruct (feed_all b chunks). exact IH.
Qed.

(** X5: frames are final as soon as they are yielded: the frames yielded
    for the first chunks of a stream are a prefix of the frames yielded for
    all of them, what follows depending on the carried-over buffer and the
    later chunks only; and the carried-over buffer never holds a
    separator. *)
Theorem frames_arrive_incrementally (before after : list str) :
  split1 SEP (snd (feed_all [] before)) = None
  /\ fst (feed_all [] (before ++ after))
     = fst (feed_all [] before)
           ++ fst (feed_all (snd (feed_all [] before)) after)
  /\ snd (feed_all [] (before ++ after))
     = snd (feed_all (snd (feed_all [] before)) after).
Proof.
  split; [apply feed_all_residual; reflexivity|].
  rewrite feed_all_app. destruct (feed_all [] before) as [f b]. cbn [fst snd].
  destruct (feed_all b after); auto.
Qed.

(* ===================================================================== *)
(** ** Further properties of the reconciler *)
(* ===================================================================== *)

Section ReconcilerMore.
Context {V : Validators}.

Lemma run_retains (ops : list op) (g : generator) :
  retains (vars g) (vars (run ops g)).
Proof.
  revert g; induction ops as [|o ops IH]; intros g; [apply retains_refl|].
  eapply retains_trans; [apply step_retains | apply IH].
Qed.

Lemma run_app (ops ops' : list op) (g : generator) :
  run (ops ++ ops') g = run ops' (run ops g).
Proof. unfold run. apply fold_left_app. Qed.

(** X6: a future that is done keeps its outcome, whatever frames are still
    to come and whatever the consumer does next. *)
Theorem futures_keep_their_outcome
        (frames : list frame) (ops later : list op) :
  let g := run ops (create frames) in
  let g' := run (ops ++ later) (create frames) in
  (done (session_id_future (vars g)) = true ->
   session_id_future (vars g') = session_id_future (vars g))
  /\ (done (usage_future (vars g)) = true ->
      usage_future (vars g') = usage_future (vars g))
  /\ (done (text_future (vars g)) = true ->
      text_future (vars g') = text_future (vars g)).
Proof.
  intros g g'. unfold g'. rewrite run_app. apply run_retains.
Qed.

(** X19: the iteration over a finite stream ends: after one pull more than
    the stream has frames, at the latest, the generator is finished,
    whatever the frames hold. *)
Theorem pulls_exhaust (frames : list frame) :
  status (run (repeat Pull (S (List.length frames))) (create frames))
  = Finished.
Proof. apply pulls_finish. simpl. lia. Qed.

(** *** The chunks and the text events *)

Lemma eqb_refl (a : str) : eqb a a = true.
Proof. apply eqb_eq. reflexivity. Qed.

(** A frame makes the generator yield exactly when it is a [text] event
    that validates. *)
Lemma handle_event_texts (event_type data : str) (st : state) :
  match handle_event event_type data st with
  | Yield chunk _ => Result.texts (@cons frame (event_type, data) nil) = [chunk]
  | _ => Result.texts (@cons frame (event_type, data) nil) = []
  end.
Proof.
  unfold handle_event, on_parse_failure. cbn [Result.texts].
  destruct (eqb event_type (lit "session")) eqn:E1.
  { apply eqb_eq in E1. subst.
    change (eqb (lit "session") (lit "text")) with false.
    destruct (SSESessionEvent data); [reflexivity|].
    destruct (is_critical (lit "session")); reflexivity. }
  destruct (eqb event_type (lit "text")) eqn:E2.
  { destruct (SSETextEvent data); [reflexivity|].
    destruct (is_critical event_type); reflexivity. }
  destruct (eqb event_type (lit "result")).
  { destruct (SSEResultEvent data) as [[sessionId usage]|].
    - destruct (set_result (usage_future st) usage); reflexivity.
    - destruct (is_critical event_type); reflexivity. }
  destruct (eqb event_type (lit "error")).
  { destruct (SSEErrorEvent data) as [[error code]|]; [reflexivity|].
    destruct (is_critical event_type); reflexivity. }
  destruct (eqb event_type (lit "done")); reflexivity.
Qed.

Lemma texts_cons (f : frame) (frames : list frame) :
  Result.texts (f :: frames) = Result.texts [f] ++ Result.texts frames.
Proof.
  destruct f as [event_type data]. cbn [Result.texts].
  destruct (eqb event_type (lit "text")); [|reflexivity].
  destruct (SSETextEvent data); reflexivity.
Qed.

(** One resumption consumes the frames up to the next text event that
    validates. *)
Lemma resume_texts (frames : list frame) (st : state) :
  match fst (resume frames st) with
  | Item chunk =>
      Result.texts frames
      = chunk :: Result.texts (upstream (snd (resume frames st)))
  | StopAsyncIteration => Result.texts frames = []
  | Raised _ => True
  end.
Proof.
  revert st; induction frames as [|[event_type data] rest IH]; intros st.
  - reflexivity.
  - rewrite texts_cons. cbn [resume].
    pose proof (handle_event_texts event_type data st) as H.
    destruct (handle_event event_type data st) as [st'|chunk st'|e st'].
    + specialize (IH st').
      destruct (fst (resume rest st')); try exact IH;
        rewrite H; exact IH.
    + cbn [fst snd upstream]. rewrite H. reflexivity.
    + exact I.
Qed.

Lemma finished_receives_nothing (ops : list op) (g : generator) :
  status g = Finished -> chunks (received ops g) = [].
Proof.
  revert g; induction ops as [|o ops IH]; intros g F; [reflexivity|].
  destruct o; cbn [received].
  - unfold anext. rewrite F. cbn [fst snd chunks]. apply IH, F.
  - apply IH. unfold aclose. rewrite F. exact F.
Qed.

Lemma anext_resume (g : generator) :
  status g <> Finished -> anext g = resume (upstream g) (vars g).
Proof. unfold anext. destruct (status g); congruence. Qed.

Lemma received_prefix (ops : list op) (g : generator) :
  status g <> Finished ->
  exists rest, Result.texts (upstream g) = chunks (received ops g) ++ rest.
Proof.
  revert g; induction ops as [|o ops IH]; intros g S.
  - exists (Result.texts (upstream g)). reflexivity.
  - destruct o; cbn [received].
    + rewrite (@anext_resume g S).
      pose proof (resume_texts (upstream g) (vars g)) as T.
      pose proof (resume_spec (upstream g) (vars g)) as R.
      destruct (fst (resume (upstream g) (vars g))) as [chunk| |e].
      * destruct R as (Ss & _). cbn [chunks].
        destruct (IH (snd (resume (upstream g) (vars g)))) as (rest & E);
          [congruence|].
        exists rest. rewrite T, E. reflexivity.
      * destruct R as (Ss & _). cbn [chunks].
        rewrite finished_receives_nothing by exact Ss.
        eexists; reflexivity.
      * destruct R as (Ss & _). cbn [chunks].
        rewrite finished_receives_nothing by exact Ss.
        eexists; reflexivity.
    + rewrite finished_receives_nothing; [eexists; reflexivity|].
      unfold aclose. destruct (status g); try reflexivity. congruence.
Qed.

(** X7: whatever the consumer does, the chunks it receives are the first
    texts of the [text] events that validate, in the order of the stream:
    nothing else is ever yielded, and nothing is yielded twice or out of
    order. *)
Theorem chunks_are_leading_texts (frames : list frame) (ops : list op) :
  exists rest,
    Result.texts frames = chunks (received ops (create frames)) ++ rest.
Proof.
  apply (@received_prefix ops (create frames)). discriminate.
Qed.

Lemma pulls_complete (n : nat) (g : generator) :
  status g <> Finished ->
  Result.no_raise (received (repeat Pull n) g) = true ->
  Result.stopped (received (repeat Pull n) g) = true ->
  chunks (received (repeat Pull n) g) = Result.texts (upstream g).
Proof.
  revert g; induction n as [|n IH]; intros g S; [discriminate|].
  cbn [repeat received]. rewrite (@anext_resume g S).
  pose proof (resume_texts (upstream g) (vars g)) as T.
  pose proof (resume_spec (upstream g) (vars g)) as R.
  destruct (fst (resume (upstream g) (vars g))) as [chunk| |e];
    cbn [Result.no_raise Result.stopped chunks]; intros NR ST.
  - destruct R as (Ss & _). rewrite T. f_equal. apply IH; congruence.
  - destruct R as (Ss & _).
    rewrite finished_receives_nothing by exact Ss. symmetry; exact T.
  - discriminate.
Qed.

(** X8: a consumer that only pulls, and that reaches the end of the
    iteration without an exception, has received the texts of all the
    [text] events that validate, in order; invalid [text] events and
    events of other types leave no trace in what it received. *)
Theorem exhausted_stream_gives_all_texts (frames : list frame) (n : nat) :
  Result.no_raise (received (repeat Pull n) (create frames)) = true ->
  Result.stopped (received (repeat Pull n) (create frames)) = true ->
  chunks (received (repeat Pull n) (create frames)) = Result.texts frames.
Proof.
  intros NR ST. apply (@pulls_complete n (create frames)); auto.
  discriminate.
Qed.

End ReconcilerMore.

Lemma futures_keep_their_outcome_witness :
  usage_future
    (vars (run (V := Sample.validators) ([Pull] ++ [Pull; Close])
               (create Sample.duplicate_result_frames)))
  = Result Sample.usage_5_3_8.
Proof.
  destruct (@futures_keep_their_outcome
              Sample.validators Sample.duplicate_result_frames
              [Pull] [Pull; Close]) as (_ & H & _).
  rewrite H; vm_compute; reflexivity.
Defined.

Lemma exhausted_stream_gives_all_texts_witness :
  chunks (received (V := Sample.validators) (repeat Pull 3)
                   (create Sample.basic_frames))
  = [lit "Hello"; lit ", world!"].
Proof.
  rewrite (@exhausted_stream_gives_all_texts
             Sample.validators Sample.basic_frames 3);
    vm_compute; reflexivity.
Defined.

(** *** Where the exceptions of the futures come from *)

Section Provenance.
Context {V : Validators}.

Lemma quiet_refl (st : state) : Result.quiet st st.
Proof. intros e; auto. Qed.

Lemma quiet_trans (st st' st'' : state) :
  Result.quiet st st' -> Result.quiet st' st'' -> Result.quiet st st''.
Proof.
  intros A B e. destruct (A e) as (A1 & A2 & A3).
  destruct (B e) as (B1 & B2 & B3). auto.
Qed.

Lemma quiet_fails_with (x : exn) (st st' st'' : state) :
  Result.quiet st st' -> Result.fails_with x st' st'' ->
  Result.fails_with x st st''.
Proof.
  intros A B e. destruct (A e) as (A1 & A2 & A3).
  destruct (B e) as (B1 & B2 & B3).
  repeat split; intros H;
    [destruct (B1 H) | destruct (B2 H) | destruct (B3 H)]; auto.
Qed.

Ltac by_cases st :=
  destruct st as [s u t a l]; intros e;
  destruct s, u, t; cbn; repeat split; intros H;
  try discriminate H; try (inversion H; subst); auto.

Lemma resolve_session_quiet v st : Result.quiet st (resolve_session v st).
Proof. unfold resolve_session. by_cases st. Qed.

Lemma resolve_text_quiet v st : Result.quiet st (resolve_text v st).
Proof. unfold resolve_text. by_cases st. Qed.

Lemma with_usage_quiet v st : Result.quiet st (with_usage (Result v) st).
Proof. by_cases st. Qed.

Lemma yield_text_quiet chunk st : Result.quiet st (yield_text chunk st).
Proof. by_cases st. Qed.

Lemma reject_unresolved_fails_with x st :
  Result.fails_with x st (reject_unresolved x st).
Proof.
  unfold reject_unresolved, fail_session, fail_text, fail_usage.
  by_cases st.
Qed.

Lemma handle_event_provenance (event_type data : str) (st : state) :
  match handle_event event_type data st with
  | Continue st' => Result.quiet st st'
  | Yield _ st' => Result.quiet st st'
  | Raise x st' => Result.fails_with x st st'
  end.
Proof.
  assert (P : match on_parse_failure event_type st with
              | Continue st' => Result.quiet st st'
              | Yield _ st' => Result.quiet st st'
              | Raise x st' => Result.fails_with x st st'
              end).
  { unfold on_parse_failure. destruct (is_critical event_type);
      [apply reject_unresolved_fails_with | apply quiet_refl]. }
  unfold handle_event.
  destruct (eqb event_type (lit "session")).
  { destruct (SSESessionEvent data); [apply resolve_session_quiet | exact P]. }
  destruct (eqb event_type (lit "text")).
  { destruct (SSETextEvent data); [apply yield_text_quiet | exact P]. }
  destruct (eqb event_type (lit "result")).
  { destruct (SSEResultEvent data) as [[sessionId usage]|]; [|exact P].
    destruct (set_result (usage_future st) usage) as [e|f] eqn:S.
    - intros e'; auto.
    - apply set_result_inr in S; destruct S as [_ ->].
      eapply quiet_trans; [apply with_usage_quiet|].
      apply resolve_session_quiet. }
  destruct (eqb event_type (lit "error")).
  { destruct (SSEErrorEvent data) as [[error code]|]; [|exact P].
    apply reject_unresolved_fails_with. }
  destruct (eqb event_type (lit "done"));
    [apply resolve_text_quiet | apply quiet_refl].
Qed.

(** The [finally] block gives no exception to the text future, and only
    its own two to the others. *)
Lemma end_of_stream_provenance (st : state) (e : exn) :
  (session_id_future (end_of_stream st) = Exception e ->
   session_id_future st = Exception e \/ e = NO_SESSION)
  /\ (usage_future (end_of_stream st) = Exception e ->
      usage_future st = Exception e \/ e = NO_USAGE)
  /\ (text_future (end_of_stream st) = Exception e ->
      text_future st = Exception e).
Proof.
  destruct (end_of_stream_futures st) as (-> & -> & ->). unfold settled.
  destruct (session_id_future st), (usage_future st), (text_future st);
    cbn; repeat split; intros H; try discriminate H;
    try (inversion H; subst); auto.
Qed.

Lemma resume_provenance (frames : list frame) (st : state) (e : exn) :
  (session_id_future (vars (snd (resume frames st))) = Exception e ->
   session_id_future st = Exception e
   \/ fst (resume frames st) = Raised e \/ e = NO_SESSION)
  /\ (usage_future (vars (snd (resume frames st))) = Exception e ->
      usage_future st = Exception e
      \/ fst (resume frames st) = Raised e \/ e = NO_USAGE)
  /\ (text_future (vars (snd (resume frames st))) = Exception e ->
      text_future st = Exception e \/ fst (resume frames st) = Raised e).
Proof.
  revert st; induction frames as [|[event_type data] rest IH]; intros st.
  - cbn [resume fst snd vars].
    destruct (end_of_stream_provenance st e) as (A & B & C).
    repeat split; intros H;
      [destruct (A H) | destruct (B H) | left; exact (C H)]; auto.
  - cbn [resume].
    pose proof (handle_event_provenance event_type data st) as H.
    destruct (handle_event event_type data st) as [st'|chunk st'|x st'].
    + destruct (H e) as (H1 & H2 & H3). destruct (IH st') as (A & B & C).
      repeat split; intros K;
        [destruct (A K) as [K'|K'] | destruct (B K) as [K'|K']
         | destruct (C K) as [K'|K']]; auto.
    + exact (match H e with
             | conj H1 (conj H2 H3) =>
                 conj (fun K => or_introl (H1 K))
                      (conj (fun K => or_introl (H2 K))
                            (fun K => or_introl (H3 K)))
             end).
    + cbn [fst snd vars]. destruct (H e) as (H1 & H2 & H3).
      destruct (end_of_stream_provenance st' e) as (A & B & C).
      repeat split; intros K.
      * destruct (A K) as [K'| ->]; [|auto].
        destruct (H1 K') as [K''| ->]; auto.
      * destruct (B K) as [K'| ->]; [|auto].
        destruct (H2 K') as [K''| ->]; auto.
      * destruct (H3 (C K)) as [K'| ->]; auto.
Qed.

Lemma run_provenance (ops : list op) (g : generator) (e : exn) :
  (session_id_future (vars (run ops g)) = Exception e ->
   session_id_future (vars g) = Exception e
   \/ In (Raised e) (received ops g) \/ e = NO_SESSION)
  /\ (usage_future (vars (run ops g)) = Exception e ->
      usage_future (vars g) = Exception e
      \/ In (Raised e) (received ops g) \/ e = NO_USAGE)
  /\ (text_future (vars (run ops g)) = Exception e ->
      text_future (vars g) = Exception e \/ In (Raised e) (received ops g)).
Proof.
  revert g; induction ops as [|o ops IH]; intros g; [cbn; auto|].
  destruct o; cbn [run fold_left step received].
  - fold (run ops (snd (anext g))).
    destruct (IH (snd (anext g))) as (A & B & C).
    assert (R : (session_id_future (vars (snd (anext g))) = Exception e ->
                 session_id_future (vars g) = Exception e
                 \/ fst (anext g) = Raised e \/ e = NO_SESSION)
                /\ (usage_future (vars (snd (anext g))) = Exception e ->
                    usage_future (vars g) = Exception e
                    \/ fst (anext g) = Raised e \/ e = NO_USAGE)
                /\ (text_future (vars (snd (anext g))) = Exception e ->
                    text_future (vars g) = Exception e
                    \/ fst (anext g) = Raised e)).
    { unfold anext. destruct (status g); try apply resume_provenance.
      cbn; auto. }
    destruct R as (R1 & R2 & R3).
    repeat split; intros K.
    + destruct (A K) as [K'|[K'|K']]; [|simpl; auto|auto].
      destruct (R1 K') as [?|[E|?]]; auto. rewrite E; simpl; auto.
    + destruct (B K) as [K'|[K'|K']]; [|simpl; auto|auto].
      destruct (R2 K') as [?|[E|?]]; auto. rewrite E; simpl; auto.
    + destruct (C K) as [K'|K']; [|simpl; auto].
      destruct (R3 K') as [?|E]; auto. rewrite E; simpl; auto.
  - fold (run ops (aclose g)).
    destruct (IH (aclose g)) as (A & B & C).
    assert (R : (session_id_future (vars (aclose g)) = Exception e ->
                 session_id_future (vars g) = Exception e \/ e = NO_SESSION)
                /\ (usage_future (vars (aclose g)) = Exception e ->
                    usage_future (vars g) = Exception e \/ e = NO_USAGE)
                /\ (text_future (vars (aclose g)) = Exception e ->
                    text_future (vars g) = Exception e)).
    { unfold aclose. destruct (status g); cbn [vars];
        try apply end_of_stream_provenance; auto. }
    destruct R as (R1 & R2 & R3).
    repeat split; intros K.
    + destruct (A K) as [K'|[K'|K']]; auto.
      destruct (R1 K'); auto.
    + destruct (B K) as [K'|[K'|K']]; auto.
      destruct (R2 K'); auto.
    + destruct (C K) as [K'|K']; auto.
Qed.

(** X9: an exception held by a future is never of the futures' own making:
    the text future fails only with an exception that a pull of the text
    sequence raised, the usage future with such an exception or with
    NO_USAGE, the session future with such an exception or with
    NO_SESSION. *)
Theorem failures_are_raised_errors
        (frames : list frame) (ops : list op) (e : exn) :
  let g := run ops (create frames) in
  let items := received ops (create frames) in
  (text_future (vars g) = Exception e -> In (Raised e) items)
  /\ (usage_future (vars g) = Exception e ->
      In (Raised e) items \/ e = NO_USAGE)
  /\ (session_id_future (vars g) = Exception e ->
      In (Raised e) items \/ e = NO_SESSION).
Proof.
  intros g items.
  destruct (run_provenance ops (create frames) e) as (A & B & C).
  repeat split; intros K.
  - destruct (C K) as [K'|K']; [discriminate K' | exact K'].
  - destruct (B K) as [K'|K']; [discriminate K' | exact K'].
  - destruct (A K) as [K'|K']; [discriminate K' | exact K'].
Qed.

End Provenance.

Lemma failures_are_raised_errors_witness :
  In (Raised (Koine (mkKoineError (lit "Rate limit exceeded")
                                  (lit "RATE_LIMIT") None)))
     (received (V := Sample.validators) [Pull; Pull]
               (create Fixtures.text_error_text)).
Proof.
  apply (@failures_are_raised_errors
           Sample.validators Fixtures.text_error_text [Pull; Pull]).
  vm_compute. reflexivity.
Defined.

(* ===================================================================== *)
(** ** Further properties of the stream session *)
(* ===================================================================== *)

Section SessionMore.
Context {V : Validators}.

Lemma stream_text_stream (rp : reply) (ts : text_stream) :
  snd (stream_text rp) = inr ts ->
  fst (stream_text rp) = send rp
  /\ ts = mkStream Created (create (parse_sse_stream (reply_body rp))).
Proof.
  unfold stream_text. destruct (negb (is_success (response (send rp))));
    cbn [fst snd]; intros H; inversion H; auto.
Qed.

Lemma closes_without_pull (n : nat) (t : transport) (ts : text_stream) :
  ts_status ts <> Suspended -> status (process ts) <> Suspended ->
  fst (ts_run (repeat Close n) (t, ts)) = t
  /\ vars (process (snd (ts_run (repeat Close n) (t, ts))))
     = vars (process ts).
Proof.
  revert ts; induction n as [|n IH]; intros ts S G; [auto|].
  cbn [repeat ts_run fold_left ts_step].
  fold (ts_run (repeat Close n) (ts_aclose (t, ts))).
  unfold ts_aclose. destruct (ts_status ts) eqn:E; try congruence.
  - destruct (IH (mkStream Finished (aclose (process ts)))) as (A & B);
      cbn [ts_status process]; try discriminate.
    + unfold aclose. destruct (status (process ts)) eqn:Q; cbn; congruence.
    + rewrite A, B. split; [reflexivity|].
      unfold aclose. destruct (status (process ts)) eqn:Q; cbn; congruence.
  - apply IH; congruence.
Qed.

(** X10: the futures settle and the transport is released only through
    pulls: on a stream that is closed, any number of times, without having
    been pulled, the three accessors never answer, no close call reaches
    the response or the client, and the connection stays open. *)
Theorem unpulled_stream_settles_nothing
        (rp : reply) (ts : text_stream) (n : nat) :
  snd (stream_text rp) = inr ts ->
  let s := ts_run (repeat Close n) (fst (stream_text rp), ts) in
  Result.session_id (snd s) = None
  /\ Result.usage (snd s) = None
  /\ Result.text (snd s) = None
  /\ calls (fst s) = []
  /\ is_closed (response (fst s)) = false
  /\ client_is_closed (fst s) = false.
Proof.
  intros O s. apply stream_text_stream in O. destruct O as [Ot ->].
  unfold s. rewrite Ot.
  destruct (@closes_without_pull
              n (send rp)
              (mkStream Created (create (parse_sse_stream (reply_body rp)))))
    as (A & B); cbn; try discriminate.
  unfold Result.session_id, Result.usage, Result.text.
  rewrite A, B. cbn. auto 7.
Qed.


End SessionMore.

Lemma unpulled_stream_settles_nothing_witness :
  match stream_text (V := Sample.validators) Sample.ok_reply with
  | (t, inr ts) =>
      Result.text (snd (ts_run (V := Sample.validators)
                               (repeat Close 2) (t, ts))) = None
      /\ client_is_closed (fst (ts_run (V := Sample.validators)
                                       (repeat Close 2) (t, ts))) = false
  | (_, inl _) => False
  end.
Proof.
  destruct (stream_text (V := Sample.validators) Sample.ok_reply)
    as [t [e|ts]] eqn:E.
  - vm_compute in E. discriminate E.
  - pose proof (@unpulled_stream_settles_nothing
                  Sample.validators Sample.ok_reply ts 2) as H.
    rewrite E in H. cbn [fst snd] in H.
    destruct (H eq_refl) as (_ & _ & T & _ & _ & C). auto.
Defined.


(* ===================================================================== *)
(** ** Requests and plain responses *)
(* ===================================================================== *)

Lemma get_absent {A} (key : str) (kwargs : Gateway.dict (option A)) :
  ~ In key (map fst kwargs) ->
  Gateway.get key (Gateway.build_request_body kwargs) = None.
Proof.
  induction kwargs as [|[k [v|]] kwargs IH]; cbn; intros H;
    [reflexivity | | apply IH; tauto].
  destruct (eqb key k) eqn:E.
  - apply eqb_eq in E. subst. exfalso. apply H. left. reflexivity.
  - apply IH; tauto.
Qed.

(** X12: the request body holds a key exactly when the keyword argument of
    that name was given a value other than [None], and holds that value;
    the arguments being keyword arguments, no name occurs twice. *)
Theorem build_request_body_get {A}
        (kwargs : Gateway.dict (option A)) (key : str) :
  NoDup (map fst kwargs) ->
  Gateway.get key (Gateway.build_request_body kwargs)
  = match Gateway.get key kwargs with
    | Some (Some v) => Some v
    | _ => None
    end.
Proof.
  induction kwargs as [|[k [v|]] kwargs IH]; cbn; intros D;
    [reflexivity | | ]; inversion D; subst.
  - destruct (eqb key k); [reflexivity | apply IH; assumption].
  - destruct (eqb key k) eqn:E; [|apply IH; assumption].
    apply eqb_eq in E. subst. apply get_absent. assumption.
Qed.

Lemma build_request_body_get_witness :
  Gateway.get (lit "model") (Gateway.build_request_body Fixtures.kwargs)
  = Some (lit "sonnet")
  /\ Gateway.get (lit "system") (Gateway.build_request_body Fixtures.kwargs)
     = None.
Proof.
  assert (D : NoDup (map fst Fixtures.kwargs)).
  { repeat constructor; cbn; intros H;
      repeat (destruct H as [H|H]; [discriminate H|]); exact H. }
  rewrite !(build_request_body_get Fixtures.kwargs _ D).
  split; reflexivity.
Defined.

(** X13: the three requests carry the prompt, the optional system prompt,
    session id and model only when they are given, never as a null, and
    the authorization header made of the key; the object request carries
    the JSON schema as well. *)
Theorem requests_carry_the_arguments {float S : Type}
        (config : Gateway.KoineConfig float) (prompt : str)
        (system session_id : option str) (json_schema : S) :
  let same (r : Gateway.request S) :=
    Gateway.get (lit "prompt") (Gateway.json r) = Some (Gateway.Str prompt)
    /\ Gateway.get (lit "system") (Gateway.json r)
       = option_map Gateway.Str system
    /\ Gateway.get (lit "sessionId") (Gateway.json r)
       = option_map Gateway.Str session_id
    /\ Gateway.get (lit "model") (Gateway.json r)
       = option_map Gateway.Str (Gateway.model config)
    /\ Gateway.get (lit "Authorization") (Gateway.headers r)
       = Some (lit "Bearer " ++ Gateway.auth_key config) in
  same (Gateway.text_request config prompt system session_id)
  /\ same (Gateway.stream_request config prompt system session_id)
  /\ same (Gateway.object_request config prompt json_schema
                                  system session_id)
  /\ Gateway.get (lit "schema")
                 (Gateway.json (Gateway.object_request
                                  config prompt json_schema
                                  system session_id))
     = Some (Gateway.Schema json_schema)
  /\ Gateway.get (lit "schema")
                 (Gateway.json (Gateway.text_request
                                  (S := S) config prompt system session_id))
     = None.
Proof.
  destruct config as [b t a [m|]]; destruct system, session_id;
    repeat split; reflexivity.
Qed.

Section GatewayFacts.
Context {V : Validators} {Obj : Type} {M : Gateway.ResponseModels Obj}.
Context {float S T : Type}.

Lemma post_is_success (rp : reply) :
  is_success (response (Gateway.post rp)) = true
  <-> (200 <= reply_status rp <= 299)%N.
Proof.
  unfold is_success, Gateway.post; cbn.
  rewrite andb_true_iff, !N.leb_le. tauto.
Qed.

Lemma post_not_success (rp : reply) :
  ~ (200 <= reply_status rp <= 299)%N ->
  is_success (response (Gateway.post rp)) = false.
Proof.
  intros H. destruct (is_success (response (Gateway.post rp))) eqn:E;
    [|reflexivity].
  apply post_is_success in E. contradiction.
Qed.

Lemma raise_error_response_post (rp : reply) :
  Gateway.raise_error_response (response (Gateway.post rp))
  = Koine
      match GatewayErrorResponse (List.concat (reply_body rp)) with
      | Some (error, code, rawText) => mkKoineError error code rawText
      | None =>
          mkKoineError
            (lit "HTTP " ++ of_N (reply_status rp) ++ lit " "
                 ++ reply_reason rp)
            (lit "HTTP_ERROR") None
      end.
Proof.
  unfold Gateway.raise_error_response, parse_error_response.
  cbn [Gateway.post response content].
  destruct (GatewayErrorResponse (List.concat (reply_body rp)))
    as [[[error code] rawText]|]; reflexivity.
Qed.

(** X14: a reply whose status is not 2xx makes [generate_text] and
    [generate_object] raise the error that [stream_text] raises for the
    same reply: the three entry points report gateway errors alike. *)
Theorem error_replies_raise_alike
        (gateway : Gateway.request S -> reply)
        (config : Gateway.KoineConfig float) (prompt : str)
        (schema : Gateway.schema_class Obj S T)
        (system session_id : option str) :
  let text_reply :=
    gateway (Gateway.text_request config prompt system session_id) in
  let object_reply :=
    gateway (Gateway.object_request
               config prompt (Gateway.model_json_schema schema)
               system session_id) in
  (~ (200 <= reply_status text_reply <= 299)%N ->
   exists e,
     snd (Gateway.generate_text gateway config prompt system session_id)
     = inl e
     /\ snd (stream_text text_reply) = inl e)
  /\ (~ (200 <= reply_status object_reply <= 299)%N ->
      exists e,
        snd (Gateway.generate_object gateway config prompt schema
                                     system session_id)
        = inl e
        /\ snd (stream_text object_reply) = inl e).
Proof.
  intros text_reply object_reply. split; intros H.
  - exists (Gateway.raise_error_response (response (Gateway.post text_reply))).
    split.
    + unfold Gateway.generate_text. fold text_reply.
      rewrite (post_not_success _ H). reflexivity.
    + rewrite (stream_text_failure _ H), raise_error_response_post.
      reflexivity.
  - exists (Gateway.raise_error_response
              (response (Gateway.post object_reply))).
    split.
    + unfold Gateway.generate_object. fold object_reply.
      rewrite (post_not_success _ H). reflexivity.
    + rewrite (stream_text_failure _ H), raise_error_response_post.
      reflexivity.
Qed.



End GatewayFacts.

Lemma error_replies_raise_alike_witness :
  snd (Gateway.generate_text
         (V := Sample.validators) (M := Fixtures.models)
         (Fixtures.unauthorized (S := unit)) Fixtures.config
         (lit "test") None None)
  = inl (Koine (mkKoineError (lit "Invalid API key") (lit "UNAUTHORIZED")
                             None)).
Proof.
  destruct (@error_replies_raise_alike
              Sample.validators str Fixtures.models nat unit nat
              (Fixtures.unauthorized (S := unit)) Fixtures.config
              (lit "test") Fixtures.lax_schema None None)
    as [H _].
  destruct H as (e & H1 & H2); [cbn; lia|].
  rewrite H1. vm_compute in H2. inversion H2. reflexivity.
Defined.

(* ===================================================================== *)
(** ** The full text, and streams without a blank line *)
(* ===================================================================== *)

Section FullText.
Context {V : Validators}.

(** A frame that does not make the pull raise: what it does to the
    accumulated text and to the text future. *)
Lemma handle_event_text_effect (event_type data : str) (st : state) :
  match handle_event event_type data st with
  | Continue st' | Yield _ st' =>
      accumulated_text st'
      = accumulated_text st
          ++ List.concat (Result.texts (@cons frame (event_type, data) nil))
      /\ text_future st'
         = (if eqb event_type (lit "done")
            then settled (text_future st) (Result (accumulated_text st))
            else text_future st)
  | Raise _ _ => True
  end.
Proof.
  assert (R : forall v, accumulated_text (resolve_session v st)
                        = accumulated_text st
                        /\ text_future (resolve_session v st)
                           = text_future st).
  { intros v. unfold resolve_session.
    destruct (done (session_id_future st)); auto. }
  unfold handle_event, on_parse_failure. cbn [Result.texts].
  destruct (eqb event_type (lit "session")) eqn:E1.
  { apply eqb_eq in E1. subst.
    change (eqb (lit "session") (lit "text")) with false.
    change (eqb (lit "session") (lit "done")) with false.
    change (is_critical (lit "session")) with true. cbv iota.
    destruct (SSESessionEvent data); [|exact I].
    destruct (R s) as [-> ->]. rewrite app_nil_r. auto. }
  destruct (eqb event_type (lit "text")) eqn:E2.
  { apply eqb_eq in E2. subst.
    change (eqb (lit "text") (lit "done")) with false.
    change (is_critical (lit "text")) with false. cbv iota.
    destruct (SSETextEvent data); cbn; rewrite ?app_nil_r; auto. }
  destruct (eqb event_type (lit "result")) eqn:E3.
  { apply eqb_eq in E3. subst.
    change (eqb (lit "result") (lit "done")) with false.
    change (is_critical (lit "result")) with true. cbv iota.
    destruct (SSEResultEvent data) as [[sessionId usage]|]; [|exact I].
    destruct (set_result (usage_future st) usage) as [e|f]; [exact I|].
    unfold resolve_session.
    destruct (done (session_id_future (with_usage f st)));
      cbn; rewrite app_nil_r; auto. }
  destruct (eqb event_type (lit "error")) eqn:E4.
  { apply eqb_eq in E4. subst.
    change (is_critical (lit "error")) with true. cbv iota.
    destruct (SSEErrorEvent data) as [[error code]|]; exact I. }
  destruct (eqb event_type (lit "done")) eqn:E5.
  - unfold resolve_text, settled.
    destruct (done (text_future st)); cbn; rewrite app_nil_r; auto.
  - rewrite app_nil_r. auto.
Qed.

Lemma before_done_cons (event_type data : str) (frames : list frame) :
  Result.before_done ((event_type, data) :: frames)
  = if eqb event_type (lit "done") then []
    else (event_type, data) :: Result.before_done frames.
Proof. reflexivity. Qed.

Lemma heads_for_step (full : str) (st st' : state)
      (event_type data : str) (rest : list frame) :
  accumulated_text st'
  = accumulated_text st
      ++ List.concat (Result.texts (@cons frame (event_type, data) nil)) ->
  text_future st'
  = (if eqb event_type (lit "done")
     then settled (text_future st) (Result (accumulated_text st))
     else text_future st) ->
  Result.heads_for full st ((event_type, data) :: rest) ->
  Result.heads_for full st' rest.
Proof.
  unfold Result.heads_for. intros A T. rewrite T, A, before_done_cons.
  destruct (eqb event_type (lit "done")) eqn:D.
  - unfold settled. destruct (text_future st); cbn; auto.
    rewrite app_nil_r. auto.
  - destruct (text_future st); auto.
    rewrite texts_cons, concat_app, app_assoc. auto.
Qed.

Lemma resume_heads_for (full : str) (frames : list frame) (st : state) :
  Result.heads_for full st frames ->
  match fst (resume frames st) with
  | Item _ =>
      Result.heads_for full (vars (snd (resume frames st)))
                       (upstream (snd (resume frames st)))
  | StopAsyncIteration =>
      text_future (vars (snd (resume frames st))) = Result full
  | Raised _ => True
  end.
Proof.
  revert st; induction frames as [|[event_type data] rest IH]; intros st H.
  - cbn [resume fst snd vars].
    destruct (end_of_stream_futures st) as (_ & _ & ->).
    unfold Result.heads_for in H. unfold settled.
    destruct (text_future st); cbn in *; [|congruence|contradiction].
    rewrite app_nil_r in H. congruence.
  - cbn [resume].
    pose proof (handle_event_text_effect event_type data st) as E.
    destruct (handle_event event_type data st) as [st'|chunk st'|e st'].
    + destruct E as [A T]. apply IH. eapply heads_for_step; eauto.
    + destruct E as [A T]. cbn [fst snd vars upstream].
      eapply heads_for_step; eauto.
    + exact I.
Qed.

Lemma finished_pulls_change_nothing (n : nat) (g : generator) :
  status g = Finished -> run (repeat Pull n) g = g.
Proof.
  induction n as [|n IH]; intros F; [reflexivity|].
  cbn [repeat run fold_left step]. unfold anext. rewrite F. cbn [snd].
  apply IH, F.
Qed.

Lemma pulls_full_text (full : str) (n : nat) (g : generator) :
  status g <> Finished ->
  Result.heads_for full (vars g) (upstream g) ->
  Result.no_raise (received (repeat Pull n) g) = true ->
  Result.stopped (received (repeat Pull n) g) = true ->
  text_future (vars (run (repeat Pull n) g)) = Result full.
Proof.
  revert g; induction n as [|n IH]; intros g S H; [discriminate|].
  cbn [repeat received run fold_left step].
  fold (run (repeat Pull n) (snd (anext g))).
  rewrite (@anext_resume V g S).
  pose proof (@resume_heads_for full (upstream g) (vars g) H) as T.
  pose proof (resume_spec (upstream g) (vars g)) as R.
  destruct (fst (resume (upstream g) (vars g))) as [chunk| |e];
    cbn [Result.no_raise Result.stopped]; intros NR ST.
  - destruct R as (Ss & _). apply IH; auto. congruence.
  - destruct R as (Ss & _).
    rewrite finished_pulls_change_nothing by exact Ss. exact T.
  - discriminate.
Qed.

(** X17: for a consumer that only pulls and reaches the end of the
    iteration without an exception, the full text is the concatenation of
    the texts of the valid [text] events that come before the first [done]
    event, or of all of them when the stream has no [done] event.  The
    loop does not stop at [done]: texts that come after it are still
    yielded, and they are not part of the full text. *)
Theorem full_text_stops_at_done (frames : list frame) (n : nat) :
  Result.no_raise (received (repeat Pull n) (create frames)) = true ->
  Result.stopped (received (repeat Pull n) (create frames)) = true ->
  text_future (vars (run (repeat Pull n) (create frames)))
  = Result (List.concat (Result.texts (Result.before_done frames)))
  /\ chunks (received (repeat Pull n) (create frames))
     = Result.texts frames.
Proof.
  intros NR ST. split.
  - apply (@pulls_full_text _ n (create frames)); auto.
    + discriminate.
    + reflexivity.
  - apply (@pulls_complete V n (create frames)); auto. discriminate.
Qed.

End FullText.

Lemma full_text_stops_at_done_witness :
  text_future (vars (run (V := Sample.validators) (repeat Pull 3)
                         (create Fixtures.text_after_done)))
  = Result (lit "Hello")
  /\ chunks (received (V := Sample.validators) (repeat Pull 3)
                      (create Fixtures.text_after_done))
     = [lit "Hello"; lit " again"].
Proof.
  destruct (@full_text_stops_at_done
              Sample.validators Fixtures.text_after_done 3) as [A B];
    [vm_compute; reflexivity | vm_compute; reflexivity |].
  split; [exact A | exact B].
Defined.

(** X18: a stream in which no blank line occurs, one whose lines end with
    carriage return and newline for instance, yields no frame while the
    chunks arrive, and at most one frame when the input ends, however many
    events it holds. *)
Theorem stream_without_blank_line (chunks : list str) :
  split1 SEP (List.concat chunks) = None ->
  fst (feed_all [] chunks) = []
  /\ (List.length (parse_sse_stream chunks) <= 1)%nat.
Proof.
  intros H.
  assert (F : feed_all [] chunks = ([], List.concat chunks)).
  { rewrite feed_all_concat by reflexivity.
    apply drain_without_separator, H. }
  split; [rewrite F; reflexivity|].
  unfold parse_sse_stream. rewrite F. cbn [app].
  unfold flush, emit. destruct (truthy (strip (List.concat chunks)));
    [apply parse_event_at_most_one | simpl; lia].
Qed.

Lemma stream_without_blank_line_witness :
  fst (feed_all [] [Fixtures.crlf_stream]) = []
  /\ (List.length (parse_sse_stream [Fixtures.crlf_stream]) <= 1)%nat.
Proof.
  apply stream_without_blank_line. vm_compute. reflexivity.
Defined.
